(** * The LibOS lock of [libos/include/libos_lock.h]

    A shallow embedding of the lock primitive that Gramine's LibOS builds on
    a single auto-clearing PAL event, together with the properties of its
    lifecycle ([_create_lock], [_clear_lock], [_destroy_lock]), of its
    critical-section operations ([_lock], [_unlock]), of the two queries
    ([lock_created], [locked]) and of the tracing macros wrapped around them.

    The header is modelled in its DEBUG configuration: [assert] is an active
    check and [locked] exists. *)

From Stdlib Require Import ZArith List String Bool Lia.
From stdpp Require Import base option list gmap strings.

Local Open Scope Z_scope.

(* ===================================================================== *)
(** ** Data model *)
(* ===================================================================== *)

(** [PAL_HANDLE] is a pointer to an opaque platform object; the null pointer
    is the "no event" sentinel. *)
Definition PAL_HANDLE := Z.
Definition NULL : PAL_HANDLE := 0.

(** Thread identifiers ([IDTYPE], an unsigned integer); 0 means "no owner". *)
Definition IDTYPE := Z.

(** [struct libos_lock]. *)
Record libos_lock : Type := mk_lock {
  lock : PAL_HANDLE;
  owner : IDTYPE
}.

(** The empty lock: no event, no owner. *)
Definition empty_lock : libos_lock := mk_lock NULL 0.

(** [p != NULL] on handles, and the truth value of a handle used as a
    condition ([assert(l->lock)], [!l->lock]). *)
Definition is_null (h : PAL_HANDLE) : bool := h =? NULL.
Definition non_null (h : PAL_HANDLE) : bool := negb (is_null h).

(* ===================================================================== *)
(** ** The platform (PAL) interface *)
(* ===================================================================== *)

(** The PAL functions called by the header are declared in [pal.h]; their
    bodies are not part of this header, so they are parameters of the
    development.  A platform carries a state and answers each call:

    - [PalEventCreate old init_signaled auto_clear] receives the current
      contents [old] of the handle cell it was given a pointer to and yields
      the return code and the new contents of the cell;
    - [PalEventWait h timeout] either never returns to a caller that is alone
      on the platform ([None]) or yields a return code;
    - [PalEventSet] and [PalObjectDestroy] return nothing. *)
Record Pal : Type := mk_pal {
  pal_state : Type;
  PalEventCreate : PAL_HANDLE -> bool -> bool -> pal_state -> Z * PAL_HANDLE * pal_state;
  PalEventWait : PAL_HANDLE -> option Z -> pal_state -> option (Z * pal_state);
  PalEventSet : PAL_HANDLE -> pal_state -> pal_state;
  PalObjectDestroy : PAL_HANDLE -> pal_state -> pal_state
}.

(** What leaves the header: every call to the platform and every record sent
    to the trace sink. *)
Inductive ext_call : Type :=
| CallEventCreate (init_signaled auto_clear : bool)
| CallEventWait (h : PAL_HANDLE) (timeout : option Z)
| CallEventSet (h : PAL_HANDLE)
| CallObjectDestroy (h : PAL_HANDLE)
| CallLogTrace (fmt : string) (arg : PAL_HANDLE).

(** A logged call remembers the contents of the lock object at the instant
    the call was issued. *)
Record call_record : Type := mk_call {
  what : ext_call;
  seen : libos_lock
}.

Definition is_log_trace (c : call_record) : bool :=
  match what c with CallLogTrace _ _ => true | _ => false end.

Definition is_wait (c : call_record) : bool :=
  match what c with CallEventWait _ _ => true | _ => false end.

Definition is_pal_call (c : call_record) : bool := negb (is_log_trace c).

(* ===================================================================== *)
(** ** The world of one calling thread, and the monad of the operations *)
(* ===================================================================== *)

Section Operations.

Context {P : Pal}.

(** The lock object [*l] the operation was handed, the identifier that
    [get_cur_tid()] returns to the calling thread, the platform, the calls
    issued so far (oldest first) and the file-scope temporary of the tracing
    macros. *)
Record world : Type := mk_world {
  mem : libos_lock;
  cur_tid : IDTYPE;
  pal : pal_state P;
  calls : list call_record;
  __create_lock_result : bool
}.

(** How a call of an operation ends: it returns, an assertion fails, the
    thread sleeps in the platform for ever, or the bound on the iterations of
    the retry loop was too small to tell. *)
Inductive outcome (A : Type) : Type :=
| Done (a : A) (w : world)
| AssertFailed (w : world)
| Blocked (w : world)
| OutOfFuel (w : world).

Arguments Done {A} a w.
Arguments AssertFailed {A} w.
Arguments Blocked {A} w.
Arguments OutOfFuel {A} w.

Definition M (A : Type) : Type := world -> outcome A.

Definition ret {A} (a : A) : M A := fun w => Done a w.

Definition bind {A B} (m : M A) (k : A -> M B) : M B :=
  fun w =>
    match m w with
    | Done a w' => k a w'
    | AssertFailed w' => AssertFailed w'
    | Blocked w' => Blocked w'
    | OutOfFuel w' => OutOfFuel w'
    end.

End Operations.

Arguments Done {P A} a w.
Arguments AssertFailed {P A} w.
Arguments Blocked {P A} w.
Arguments OutOfFuel {P A} w.

Notation "'let*' x ':=' m 'in' k" := (bind m (fun x => k))
  (at level 10, x name, m at level 100, k at level 200).
Notation "m ';;' k" := (bind m (fun _ => k))
  (at level 100, k at level 200, right associativity).

Section Header.

Context {P : Pal}.

Local Abbreviation M := (@M P).
Local Abbreviation world := (@world P).

(** The world an outcome ends in. *)
Definition final {A} (o : outcome A) : world :=
  match o with
  | Done _ w | AssertFailed w | Blocked w | OutOfFuel w => w
  end.

(** *** Memory accesses *)

Definition load_lock : M PAL_HANDLE := fun w => Done (lock (mem w)) w.
Definition load_owner : M IDTYPE := fun w => Done (owner (mem w)) w.

Definition set_mem (m : libos_lock) (w : world) : world :=
  mk_world m (cur_tid w) (pal w) (calls w) (__create_lock_result w).

Definition store_lock (h : PAL_HANDLE) : M unit :=
  fun w => Done tt (set_mem (mk_lock h (owner (mem w))) w).

Definition store_owner (t : IDTYPE) : M unit :=
  fun w => Done tt (set_mem (mk_lock (lock (mem w)) t) w).

Definition load_create_lock_result : M bool :=
  fun w => Done (__create_lock_result w) w.

Definition store_create_lock_result (b : bool) : M unit :=
  fun w => Done tt (mk_world (mem w) (cur_tid w) (pal w) (calls w) b).

(** *** Collaborators *)

Definition get_cur_tid : M IDTYPE := fun w => Done (cur_tid w) w.

Definition assert (c : bool) : M unit :=
  fun w => if c then Done tt w else AssertFailed w.

Definition record (c : ext_call) (w : world) : list call_record :=
  calls w ++ [mk_call c (mem w)].

(** [PalEventCreate(&l->lock, init_signaled, auto_clear)]. *)
Definition pal_event_create (init_signaled auto_clear : bool) : M Z :=
  fun w =>
    let '(r, h, p) := PalEventCreate P (lock (mem w)) init_signaled auto_clear (pal w) in
    Done r (mk_world (mk_lock h (owner (mem w))) (cur_tid w) p
              (record (CallEventCreate init_signaled auto_clear) w)
              (__create_lock_result w)).

Definition pal_event_wait (h : PAL_HANDLE) (timeout : option Z) : M Z :=
  fun w =>
    let cs := record (CallEventWait h timeout) w in
    match PalEventWait P h timeout (pal w) with
    | Some (r, p) => Done r (mk_world (mem w) (cur_tid w) p cs (__create_lock_result w))
    | None => Blocked (mk_world (mem w) (cur_tid w) (pal w) cs (__create_lock_result w))
    end.

Definition pal_event_set (h : PAL_HANDLE) : M unit :=
  fun w =>
    Done tt (mk_world (mem w) (cur_tid w) (PalEventSet P h (pal w))
               (record (CallEventSet h) w) (__create_lock_result w)).

Definition pal_object_destroy (h : PAL_HANDLE) : M unit :=
  fun w =>
    Done tt (mk_world (mem w) (cur_tid w) (PalObjectDestroy P h (pal w))
               (record (CallObjectDestroy h) w) (__create_lock_result w)).

(** [log_trace(fmt, arg)]: the record goes to the sink and nothing comes
    back. *)
Definition log_trace (fmt : string) (arg : PAL_HANDLE) : M unit :=
  fun w =>
    Done tt (mk_world (mem w) (cur_tid w) (pal w)
               (record (CallLogTrace fmt arg) w) (__create_lock_result w)).

(* ===================================================================== *)
(** ** The operations of the header *)
(* ===================================================================== *)

Definition lock_created : M bool :=
  let* h := load_lock in
  ret (non_null h).

Definition _clear_lock : M unit :=
  store_lock NULL ;;
  store_owner 0.

Definition _create_lock : M bool :=
  store_owner 0 ;;
  let* r := pal_event_create true true in
  ret (r =? 0).

Definition _destroy_lock : M unit :=
  let* h := load_lock in
  pal_object_destroy h ;;
  _clear_lock.

(** [while (PalEventWait(l->lock, NULL) < 0);] with at most [fuel]
    evaluations of the condition. *)
Fixpoint wait_loop (fuel : nat) : M unit :=
  match fuel with
  | O => fun w => OutOfFuel w
  | S fuel' =>
      let* h := load_lock in
      let* r := pal_event_wait h None in
      if r <? 0 then wait_loop fuel' else ret tt
  end.

Definition _lock (fuel : nat) : M unit :=
  let* h := load_lock in
  assert (non_null h) ;;
  wait_loop fuel ;;
  let* t := get_cur_tid in
  store_owner t.

Definition _unlock : M unit :=
  let* h := load_lock in
  assert (non_null h) ;;
  store_owner 0 ;;
  let* h' := load_lock in
  pal_event_set h'.

Definition locked : M bool :=
  let* h := load_lock in
  if is_null h then ret false
  else
    let* t := get_cur_tid in
    let* o := load_owner in
    ret (t =? o).

End Header.

(* ===================================================================== *)
(** ** The tracing macros *)
(* ===================================================================== *)

(** The public names [create_lock], [clear_lock], [destroy_lock], [lock] and
    [unlock] are macros, expanded where they are used.  What a use hands to
    the macro is an argument expression of the caller, not a lock object: the
    expansion evaluates the expression every time it mentions it, in the
    caller's own state, and pastes the tokens of the expression into the
    format string ([#l]). *)

(** An argument of a macro: its tokens as written, its tokens after complete
    macro replacement, and what evaluating it does.  Evaluation reads the
    caller's variables, yields the address of a lock object and may assign
    to the variables, as [p++] does; an argument that itself works on locks
    or on the platform is not covered.  Addresses count lock objects. *)
Record macro_arg : Type := mk_arg {
  spelling : string;
  expanded : string;
  eval : gmap string Z -> Z * gmap string Z
}.

(** An argument that an outer macro passes on to an inner one is completely
    macro-replaced before it is substituted, so the inner macro sees, and
    stringifies, the replaced tokens. *)
Definition replaced (l : macro_arg) : macro_arg :=
  mk_arg (expanded l) (expanded l) (eval l).

Section Caller.

Context {P : Pal}.

(** The state of the program at a use of a macro: the lock objects by
    address, the caller's variables, the running thread, the platform, the
    calls issued so far, and the variable [__create_lock_result], of which
    every translation unit that includes the header has its own (it is
    [static]); translation units are numbered. *)
Record caller : Type := mk_caller {
  c_heap : gmap Z libos_lock;
  c_vars : gmap string Z;
  c_tid : IDTYPE;
  c_pal : pal_state P;
  c_calls : list call_record;
  c_results : gmap nat bool
}.

(** How an expansion can end without returning: an assertion of the
    operation failed, the operation sleeps in the platform for ever, the
    bound on its loop was too small to tell, or the argument did not point
    to a lock object. *)
Inductive ending : Type := Asserted | Sleeping | Spinning | WildPointer.

Inductive result (A : Type) : Type :=
| Returned (a : A) (c : caller)
| Ended (e : ending) (c : caller).

Arguments Returned {A} a c.
Arguments Ended {A} e c.

Definition CM (A : Type) : Type := caller -> result A.

Definition cret {A} (a : A) : CM A := fun c => Returned a c.

Definition cbind {A B} (m : CM A) (k : A -> CM B) : CM B :=
  fun c =>
    match m c with
    | Returned a c' => k a c'
    | Ended e c' => Ended e c'
    end.

(** The state a result ends in. *)
Definition after {A} (o : result A) : caller :=
  match o with
  | Returned _ c | Ended _ c => c
  end.

(** The value of [__create_lock_result] in the translation unit [u]; a
    static variable starts as [false]. *)
Definition result_cell (u : nat) (c : caller) : bool :=
  default false (c_results c !! u).

(** Code of the translation unit [u] working on the lock object at the
    address [a]: the world it sees, and the program state when it is done. *)
Definition enter (u : nat) (a : Z) (c : caller) : option (@world P) :=
  match c_heap c !! a with
  | Some l => Some (mk_world l (c_tid c) (c_pal c) (c_calls c) (result_cell u c))
  | None => None
  end.

Definition leave (u : nat) (a : Z) (c : caller) (w : @world P) : caller :=
  mk_caller (<[a := mem w]> (c_heap c)) (c_vars c) (cur_tid w) (pal w)
            (calls w) (<[u := __create_lock_result w]> (c_results c)).

Definition call_on {A} (u : nat) (a : Z) (m : @M P A) : CM A :=
  fun c =>
    match enter u a c with
    | None => Ended WildPointer c
    | Some w =>
        match m w with
        | Done x w' => Returned x (leave u a c w')
        | AssertFailed w' => Ended Asserted (leave u a c w')
        | Blocked w' => Ended Sleeping (leave u a c w')
        | OutOfFuel w' => Ended Spinning (leave u a c w')
        end
    end.

(** One evaluation of the argument [l]. *)
Definition value (l : macro_arg) : CM Z :=
  fun c =>
    let '(a, v) := eval l (c_vars c) in
    Returned a (mk_caller (c_heap c) v (c_tid c) (c_pal c) (c_calls c)
                          (c_results c)).

(** A read of [__create_lock_result] in the translation unit [u]. *)
Definition read_result (u : nat) : CM bool :=
  fun c => Returned (result_cell u c) c.

End Caller.

Arguments Returned {P A} a c.
Arguments Ended {P A} e c.

Notation "'let!' x ':=' m 'in' k" := (cbind m (fun x => k))
  (at level 10, x name, m at level 100, k at level 200).
Notation "m ';;;' k" := (cbind m (fun _ => k))
  (at level 100, k at level 200, right associativity).

(** The expansions.  The first parameter tells whether [LOCK_TRACING] is
    defined, the second in which translation unit the macro is used.  The
    comma operator evaluates its operands left to right and yields the last
    one. *)
Module Traced.
Section Macros.

Context {P : Pal}.

Local Abbreviation M := (@M P).
Local Abbreviation CM := (@CM P).

(** [#func "(%p/" #l ")"]. *)
Definition trace_fmt (func l : string) : string :=
  String.append func (String.append "(%p/" (String.append l ")")).

(** [func(l)]: the argument is evaluated and the function is called on the
    lock object it points to. *)
Definition apply_to {A} (u : nat) (func : M A) (l : macro_arg) : CM A :=
  let! a := value l in
  call_on u a func.

(** [log_trace(#func "(%p/" #l ")", (l)->lock)]: the argument is evaluated,
    the handle of the lock object it points to is read and the record is
    written. *)
Definition trace_handle (u : nat) (func_name : string) (l : macro_arg) : CM unit :=
  let! a := value l in
  call_on u a (let* h := load_lock in
               log_trace (trace_fmt func_name (spelling l)) h).

(** [log_trace(#func "(%p/" #l ")", (l)->lock), func(l)] *)
Definition LOCK_PRE_TRACE {A} (u : nat) (func_name : string) (func : M A)
    (l : macro_arg) : CM A :=
  trace_handle u func_name l ;;;
  apply_to u func l.

(** [func(l), log_trace(#func "(%p/" #l ")", (l)->lock)] *)
Definition LOCK_POST_TRACE {A} (u : nat) (func_name : string) (func : M A)
    (l : macro_arg) : CM unit :=
  apply_to u func l ;;;
  trace_handle u func_name l.

(** The three operands of the traced [create_lock]:
    [__create_lock_result = _create_lock(l)], then
    [log_trace("_create_lock(%p/" #l ")", (l)->lock)], then
    [__create_lock_result]. *)
Definition create_lock_assign (u : nat) (l : macro_arg) : CM unit :=
  apply_to u (let* r := _create_lock in store_create_lock_result r) l.

Definition create_lock_trace (u : nat) (l : macro_arg) : CM unit :=
  trace_handle u "_create_lock" l.

Definition create_lock_yield (u : nat) : CM bool :=
  read_result u.

Definition create_lock (LOCK_TRACING : bool) (u : nat) (l : macro_arg) : CM bool :=
  if LOCK_TRACING then
    create_lock_assign u l ;;;
    create_lock_trace u l ;;;
    create_lock_yield u
  else apply_to u _create_lock l.

Definition clear_lock (LOCK_TRACING : bool) (u : nat) (lock : macro_arg) : CM unit :=
  if LOCK_TRACING then LOCK_PRE_TRACE u "_clear_lock" _clear_lock (replaced lock)
  else apply_to u _clear_lock lock.

Definition destroy_lock (LOCK_TRACING : bool) (u : nat) (lock : macro_arg) : CM unit :=
  if LOCK_TRACING then LOCK_PRE_TRACE u "_destroy_lock" _destroy_lock (replaced lock)
  else apply_to u _destroy_lock lock.

Definition unlock (LOCK_TRACING : bool) (u : nat) (lock : macro_arg) : CM unit :=
  if LOCK_TRACING then LOCK_PRE_TRACE u "_unlock" _unlock (replaced lock)
  else apply_to u _unlock lock.

Definition lock (LOCK_TRACING : bool) (u : nat) (fuel : nat) (lock : macro_arg)
    : CM unit :=
  if LOCK_TRACING then LOCK_POST_TRACE u "_lock" (_lock fuel) (replaced lock)
  else apply_to u (_lock fuel) lock.

End Macros.
End Traced.

(* ===================================================================== *)
(** ** A test double for the platform *)
(* ===================================================================== *)

(** The bodies of the PAL functions are not in the header.  The double below
    stands for them wherever a statement needs the behaviour of the event
    itself and not only the order and the arguments of the calls. *)

(** Modelled from the spec: the platform's event object, which is not in the
    header; a binary signal with an optional auto-clear mode. *)
Record td_event : Type := mk_event {
  signaled : bool;
  auto_clear : bool
}.

(** Modelled from the spec: the state of the platform, which is not in the
    header.  The double keeps the live objects by handle, the handle it will
    give out next, and two scripts with which a test injects faults: the return codes
    of the coming [PalEventCreate] calls (a nonzero code makes the call fail)
    and of the coming [PalEventWait] calls (a negative code makes the call
    fail without touching the event).  When a script is empty the call is
    served normally. *)
Record td_state : Type := mk_td {
  events : gmap Z td_event;
  next_handle : positive;
  create_script : list Z;
  wait_script : list Z
}.

(** Modelled from the spec: the body of [PalEventCreate], which is not in the
    header.  A successful call makes a new event in the requested mode and
    stores its (non-null) handle; a failed call leaves the handle cell as it
    was. *)
Definition td_create (old : PAL_HANDLE) (init_signaled auto_clear : bool)
    (s : td_state) : Z * PAL_HANDLE * td_state :=
  let fresh := Z.pos (next_handle s) in
  let ok rest :=
    (0, fresh,
     mk_td (<[fresh := mk_event init_signaled auto_clear]> (events s))
           (Pos.succ (next_handle s)) rest (wait_script s)) in
  match create_script s with
  | [] => ok []
  | r :: rest =>
      if r =? 0 then ok rest
      else (r, old, mk_td (events s) (next_handle s) rest (wait_script s))
  end.

(** Modelled from the spec: the body of [PalEventWait] with no timeout, which
    is not in the header.  A wait on a signaled event succeeds at once and,
    for an auto-clearing event, resets the event in the same step; a wait on
    an event that is not signaled does not return; a wait on a handle that
    names no event returns the error -22. *)
Definition td_serve_wait (h : PAL_HANDLE) (rest : list Z) (s : td_state)
    : option (Z * td_state) :=
  match events s !! h with
  | None => Some (-22, mk_td (events s) (next_handle s) (create_script s) rest)
  | Some e =>
      if signaled e then
        Some (0, mk_td (if auto_clear e
                        then <[h := mk_event false true]> (events s)
                        else events s)
                       (next_handle s) (create_script s) rest)
      else None
  end.

(** Modelled from the spec: [PalEventWait] as a test sees it, which is not
    in the header.  A pending negative code of the script is returned as a
    transient error; otherwise the wait is served. *)
Definition td_wait (h : PAL_HANDLE) (timeout : option Z) (s : td_state)
    : option (Z * td_state) :=
  match wait_script s with
  | [] => td_serve_wait h [] s
  | r :: rest =>
      if r <? 0
      then Some (r, mk_td (events s) (next_handle s) (create_script s) rest)
      else td_serve_wait h rest s
  end.

(** Modelled from the spec: the body of [PalEventSet], which is not in the
    header.  It signals the event. *)
Definition td_set (h : PAL_HANDLE) (s : td_state) : td_state :=
  mk_td (alter (fun e => mk_event true (auto_clear e)) h (events s))
        (next_handle s) (create_script s) (wait_script s).

(** Modelled from the spec: the body of [PalObjectDestroy], which is not in
    the header.  It releases the object. *)
Definition td_destroy (h : PAL_HANDLE) (s : td_state) : td_state :=
  mk_td (delete h (events s)) (next_handle s) (create_script s) (wait_script s).

(** Modelled from the spec: the platform made of the four bodies above. *)
Definition test_double : Pal :=
  mk_pal td_state td_create td_wait td_set td_destroy.

(** A platform with nothing created yet and the given fault scripts. *)
Definition td_init (cs ws : list Z) : td_state := mk_td ∅ 1%positive cs ws.

(** A world of the calling thread [t] on the test double. *)
Definition td_world (l : libos_lock) (t : IDTYPE) (s : td_state) : @world test_double :=
  @mk_world test_double l t s [] false.

(* ===================================================================== *)
(** ** Several threads on one lock *)
(* ===================================================================== *)

(** Threads share the lock object and the platform.  Every thread runs
    [_lock], its critical section and [_unlock], over and over, and another
    thread may run between any two accesses to what they share.  The places
    where a thread can be: *)
Inductive pc : Type :=
| Outside        (* not in an operation and not holding the lock *)
| LockEntered    (* in [_lock], past the assertion, at [PalEventWait] *)
| LockWoken      (* in [_lock], the wait has succeeded, owner not yet stored *)
| Holding        (* [_lock] has returned, [_unlock] is not yet called *)
| UnlockEntered  (* in [_unlock], past the assertion *)
| UnlockCleared. (* in [_unlock], owner cleared, at [PalEventSet] *)

Record state : Type := mk_state {
  shared : libos_lock;
  platform : td_state;
  pcs : list pc
}.

(** The identifier of the [i]-th thread: stable, distinct from the others'
    and not zero. *)
Definition tid_of (i : nat) : IDTYPE := Z.of_nat (S i).

(** What thread [i] sees when it runs. *)
Definition view (i : nat) (s : state) : @world test_double :=
  td_world (shared s) (tid_of i) (platform s).

(** Thread [i] runs the piece [m] of an operation without interruption and
    moves on to the place [next] tells.  A thread whose wait does not return,
    or whose assertion fails, does not advance. *)
Definition atomically {A} (m : @M test_double A) (next : A -> pc)
    (i : nat) (s : state) : option state :=
  match m (view i s) with
  | Done a w => Some (mk_state (mem w) (pal w) (<[i := next a]> (pcs s)))
  | _ => None
  end.

(** The pieces of [_lock] and [_unlock]. *)
Definition check_handle : @M test_double unit :=
  let* h := load_lock in
  assert (non_null h).

Definition wait_once : @M test_double Z :=
  let* h := load_lock in
  pal_event_wait h None.

Definition take_ownership : @M test_double unit :=
  let* t := get_cur_tid in
  store_owner t.

Definition drop_ownership : @M test_double unit :=
  store_owner 0.

Definition signal : @M test_double unit :=
  let* h' := load_lock in
  pal_event_set h'.

(** The next step of thread [i], if it can take one. *)
Definition step (i : nat) (s : state) : option state :=
  match pcs s !! i with
  | None => None
  | Some Outside => atomically check_handle (fun _ => LockEntered) i s
  | Some LockEntered =>
      atomically wait_once (fun r => if r <? 0 then LockEntered else LockWoken) i s
  | Some LockWoken => atomically take_ownership (fun _ => Holding) i s
  | Some Holding => atomically check_handle (fun _ => UnlockEntered) i s
  | Some UnlockEntered => atomically drop_ownership (fun _ => UnlockCleared) i s
  | Some UnlockCleared => atomically signal (fun _ => Outside) i s
  end.

(** An interleaving is the list of the threads chosen to run, in order; a
    chosen thread that cannot take a step is passed over. *)
Fixpoint exec (sched : list nat) (s : state) : state :=
  match sched with
  | [] => s
  | i :: rest => exec rest (default s (step i s))
  end.

(** [n] threads, none of them in an operation, on the lock and platform of
    the world [w]. *)
Definition start (n : nat) (w : @world test_double) : state :=
  mk_state (mem w) (pal w) (replicate n Outside).

(** A thread is in its critical section from the return of its [_lock] to
    its call of [_unlock]. *)
Definition critical (p : pc) : bool :=
  match p with Holding => true | _ => false end.

(** A thread has the signal from the success of its wait to its
    [PalEventSet]. *)
Definition has_signal (p : pc) : bool :=
  match p with
  | LockWoken | Holding | UnlockEntered | UnlockCleared => true
  | Outside | LockEntered => false
  end.

Definition in_critical_section (s : state) (i : nat) : bool :=
  match pcs s !! i with Some p => critical p | None => false end.

(** The value of the counter that every thread bumps while it is in its
    critical section. *)
Definition critical_count (s : state) : nat :=
  length (List.filter critical (pcs s)).

(** The number of signals in the hands of a thread, and of the threads. *)
Definition tok (p : pc) : nat := if has_signal p then 1 else 0.

Fixpoint signals_held (l : list pc) : nat :=
  match l with
  | [] => O
  | p :: l' => (tok p + signals_held l')%nat
  end.

(** The event behind the shared lock, if it exists. *)
Definition lock_event (s : state) : option td_event :=
  events (platform s) !! lock (shared s).

(** The number of signals the event has to give: one when it is signaled. *)
Definition event_signals (s : state) : nat :=
  match lock_event s with
  | Some e => if signaled e then 1 else 0
  | None => 0
  end.

(** What the owner field must read while thread [i] is at [p], when that is
    determined. *)
Definition owner_when (i : nat) (p : pc) : option IDTYPE :=
  match p with
  | Holding | UnlockEntered => Some (tid_of i)
  | LockWoken | UnlockCleared => Some 0
  | Outside | LockEntered => None
  end.

(** The invariant of a lock in use: its handle is valid and names a live
    auto-clearing event; there is exactly one signal, in the event or in the
    hands of one thread; and the owner field reads 0 while the event is
    signaled and what the thread that has the signal makes it otherwise. *)
Record lock_inv (s : state) : Prop := mk_inv {
  inv_handle : non_null (lock (shared s)) = true;
  inv_event : exists e, lock_event s = Some e /\ auto_clear e = true;
  inv_one_signal : (event_signals s + signals_held (pcs s))%nat = 1%nat;
  inv_unowned : event_signals s = 1%nat -> owner (shared s) = 0;
  inv_owner : forall i p o,
      pcs s !! i = Some p -> owner_when i p = Some o -> owner (shared s) = o
}.

(** Two threads on an event that was created without auto-clear, and the
    interleaving in which each of them runs its [_lock] to the end. *)
Definition manual_event_state : state :=
  mk_state (mk_lock 1 0)
           (mk_td {[ 1 := mk_event true false ]} 2%positive [] [])
           [Outside; Outside].

Definition both_lock : list nat := [0; 0; 0; 1; 1; 1]%nat.

(* ===================================================================== *)
(** ** Vocabulary of the statements *)
(* ===================================================================== *)

(** [wait_errors_then_success n h p] is the platform state left by [n] waits
    on [h] that report an error followed by one that succeeds, when that is
    how the platform in state [p] answers. *)
Fixpoint wait_errors_then_success {P : Pal} (n : nat) (h : PAL_HANDLE)
    (p : pal_state P) : option (pal_state P) :=
  match PalEventWait P h None p with
  | None => None
  | Some (r, p') =>
      match n with
      | O => if r <? 0 then None else Some p'
      | S n' => if r <? 0 then wait_errors_then_success n' h p' else None
      end
  end.

(** The record of one wait of [_lock] in the world [w]. *)
Definition wait_record {P : Pal} (w : @world P) : call_record :=
  mk_call (CallEventWait (lock (mem w)) None) (mem w).

(** The calls in [l] that went to the platform, the trace records left
    out. *)
Definition pal_calls (l : list call_record) : list call_record :=
  List.filter is_pal_call l.

(** The number of [PalEventWait] calls in [l]. *)
Definition wait_count (l : list call_record) : nat :=
  length (List.filter is_wait l).

(** The address an argument yields when it is evaluated for the first time
    with the variables [v], the variables after that, and the same for a
    second evaluation. *)
Definition first_value (l : macro_arg) (v : gmap string Z) : Z :=
  (eval l v).1.

Definition once (l : macro_arg) (v : gmap string Z) : gmap string Z :=
  (eval l v).2.

Definition second_value (l : macro_arg) (v : gmap string Z) : Z :=
  first_value l (once l v).

Definition twice (l : macro_arg) (v : gmap string Z) : gmap string Z :=
  once l (once l v).

(** An argument whose evaluation assigns to no variable. *)
Definition side_effect_free (l : macro_arg) : Prop :=
  forall v, once l v = v.

(** The argument [x++], for a pointer variable [x]. *)
Definition post_increment (x : string) : macro_arg :=
  mk_arg (String.append x "++") (String.append x "++")
         (fun v => (default 0 (v !! x), <[x := default 0 (v !! x) + 1]> v)).

(** The argument [&x], for a lock object [x] at the address [a]. *)
Definition address_of (x : string) (a : Z) : macro_arg :=
  mk_arg (String.append "&" x) (String.append "&" x) (fun v => (a, v)).

(** The program state with other variables. *)
Definition set_vars {P : Pal} (v : gmap string Z) (c : @caller P) : @caller P :=
  mk_caller (c_heap c) v (c_tid c) (c_pal c) (c_calls c) (c_results c).

(** The program state when the thread [t], whose variables are [v], runs. *)
Definition resume {P : Pal} (t : IDTYPE) (v : gmap string Z) (c : @caller P)
    : @caller P :=
  mk_caller (c_heap c) v t (c_pal c) (c_calls c) (c_results c).

(** Two program states agree on everything but the trace records and the
    variables [__create_lock_result]. *)
Definition same_site {P : Pal} (c1 c2 : @caller P) : Prop :=
  c_heap c1 = c_heap c2 /\ c_vars c1 = c_vars c2 /\ c_tid c1 = c_tid c2 /\
  c_pal c1 = c_pal c2 /\ pal_calls (c_calls c1) = pal_calls (c_calls c2).

(** Two expansions end the same way, with the same value, in program states
    that agree. *)
Definition same_result {P : Pal} {A} (o1 o2 : @result P A) : Prop :=
  match o1, o2 with
  | Returned a c1, Returned b c2 => a = b /\ same_site c1 c2
  | Ended e1 c1, Ended e2 c2 => e1 = e2 /\ same_site c1 c2
  | _, _ => False
  end.

(** The program state [c] once the argument [l] has been evaluated twice and
    the trace record of the operation [name], printing the handle of the
    lock object [la], has been left by code of the translation unit [u]. *)
Definition with_record {P : Pal} (u : nat) (name : string) (l : macro_arg)
    (la : libos_lock) (c : @caller P) : @caller P :=
  mk_caller (c_heap c) (twice l (c_vars c)) (c_tid c) (c_pal c)
    (c_calls c ++
     [mk_call (CallLogTrace (Traced.trace_fmt name (expanded l)) (lock la)) la])
    (<[u := result_cell u c]> (c_results c)).

(** The contract of [PalEventCreate] on its handle: a call that returns 0
    has stored a handle that is not null. *)
Definition create_gives_handle (P : Pal) : Prop :=
  forall old init_signaled auto_clear p,
    let '(r, h, _) := PalEventCreate P old init_signaled auto_clear p in
    r = 0 -> h <> NULL.

(** The same world, seen by the thread [t]. *)
Definition as_thread {P : Pal} (t : IDTYPE) (w : @world P) : @world P :=
  mk_world (mem w) t (pal w) (calls w) (__create_lock_result w).

(* ===================================================================== *)
(** ** Concrete situations *)
(* ===================================================================== *)

(** Thread 42 on a platform where nothing is created yet, with a lock object
    that is empty. *)
Definition fresh_world : @world test_double :=
  td_world empty_lock 42 (td_init [] []).

(** The same after [_create_lock]. *)
Definition created_world : @world test_double :=
  final (_create_lock fresh_world).

(** A created lock on a platform whose next three waits fail with -4. *)
Definition flaky_world : @world test_double :=
  td_world (mk_lock 1 0) 42
    (mk_td {[ 1 := mk_event true true ]} 2%positive [] [-4; -4; -4]).

(** The platform once those waits and a successful one are served. *)
Definition served_platform : td_state :=
  mk_td {[ 1 := mk_event false true ]} 2%positive [] [].

(** Thread 42 holding a created lock. *)
Definition held_world : @world test_double :=
  td_world (mk_lock 1 42) 42 served_platform.

(** A lock object that was cleared under its last owner's nose: no handle,
    but thread 7 still written in the owner field. *)
Definition stale_world : @world test_double :=
  td_world (mk_lock NULL 7) 42 (td_init [] []).

(** Three threads taking turns. *)
Definition contended : list nat :=
  [0; 1; 0; 2; 0; 1; 0; 0; 0; 1; 2; 1; 1; 2; 2]%nat.

(* ===================================================================== *)
(** ** Further vocabulary *)
(* ===================================================================== *)

(** [wait_errors n h p] is the platform state left by [n] waits on [h] that
    all report an error, when that is how the platform in state [p]
    answers. *)
Fixpoint wait_errors {P : Pal} (n : nat) (h : PAL_HANDLE)
    (p : pal_state P) : option (pal_state P) :=
  match n with
  | O => Some p
  | S n' =>
      match PalEventWait P h None p with
      | Some (r, p') => if r <? 0 then wait_errors n' h p' else None
      | None => None
      end
  end.

(** The calls issued between the world [w] and the later world [w']. *)
Definition new_calls {P : Pal} (w w' : @world P) : list call_record :=
  drop (length (calls w)) (calls w').

(** The four operations of a lock's life, one after the other. *)
Definition life_cycle {P : Pal} (fuel : nat) : @M P unit :=
  _create_lock ;;
  _lock fuel ;;
  _unlock ;;
  _destroy_lock.

(** Two created locks next to each other on the test double, the first held
    by thread 42, whose pointer [p] points to the first. *)
Definition two_locks : @caller test_double :=
  @mk_caller test_double
    {[ 0 := mk_lock 1 42; 1 := mk_lock 2 0 ]} {[ "p" := 0 ]} 42
    (mk_td {[ 1 := mk_event false true; 2 := mk_event true true ]}
           3%positive [] [])
    [] ∅.

(** An empty lock object at the address 0 on a platform whose first
    [PalEventCreate] fails with -12 and whose second succeeds, and another
    empty lock object at the address 1. *)
Definition scarce_site : @caller test_double :=
  @mk_caller test_double {[ 0 := empty_lock; 1 := empty_lock ]} ∅ 42
    (td_init [-12; 0] []) [] ∅.

(** On [scarce_site], thread 42 uses [create_lock(&a)] and thread 7 uses
    [create_lock(&b)], both in the translation unit 0: the program states
    after the first operand of thread 42 and after the whole macro of thread
    7. *)
Definition scarce_assigned : @caller test_double :=
  after (Traced.create_lock_assign 0 (address_of "a" 0) scarce_site).

Definition scarce_overlapped : @caller test_double :=
  after (Traced.create_lock true 0 (address_of "b" 1)
           (resume 7 ∅ scarce_assigned)).

(** A created lock on a platform that answers every one of the next five
    waits with -4. *)
Definition failing_world : @world test_double :=
  td_world (mk_lock 1 0) 42
    (mk_td {[ 1 := mk_event true true ]} 2%positive [] [-4; -4; -4; -4; -4]).

(** That platform once the five waits are answered. *)
Definition drained_platform : td_state :=
  mk_td {[ 1 := mk_event true true ]} 2%positive [] [].

(* ===================================================================== *)
(** ** Running the operations *)
(* ===================================================================== *)

Ltac run :=
  unfold Traced.create_lock, Traced.clear_lock, Traced.destroy_lock,
    Traced.unlock, Traced.lock, Traced.LOCK_PRE_TRACE, Traced.LOCK_POST_TRACE,
    _create_lock, _clear_lock, _destroy_lock, _lock, _unlock, locked,
    lock_created, bind, ret, load_lock, load_owner, store_lock, store_owner,
    load_create_lock_result, store_create_lock_result, get_cur_tid, assert,
    pal_event_create, pal_event_set, pal_object_destroy, log_trace, set_mem,
    record in *;
  cbn [mem cur_tid pal calls __create_lock_result lock owner final] in *.

Section Lifecycle.

Context {P : Pal}.

Local Abbreviation world := (@world P).

(** [_clear_lock] in closed form. *)
Lemma clear_lock_run (w : world) :
  _clear_lock w = Done tt (set_mem empty_lock w).
Proof. reflexivity. Qed.

(** [_destroy_lock] in closed form. *)
Lemma destroy_lock_run (w : world) :
  _destroy_lock w =
  Done tt (mk_world empty_lock (cur_tid w)
             (PalObjectDestroy P (lock (mem w)) (pal w))
             (calls w ++ [mk_call (CallObjectDestroy (lock (mem w))) (mem w)])
             (__create_lock_result w)).
Proof. reflexivity. Qed.

(** [_unlock] in closed form, on a lock whose handle is valid. *)
Lemma unlock_run (w : world) :
  non_null (lock (mem w)) = true ->
  _unlock w =
  Done tt (mk_world (mk_lock (lock (mem w)) 0) (cur_tid w)
             (PalEventSet P (lock (mem w)) (pal w))
             (calls w ++ [mk_call (CallEventSet (lock (mem w)))
                                  (mk_lock (lock (mem w)) 0)])
             (__create_lock_result w)).
Proof. intros Hv. run. rewrite Hv. reflexivity. Qed.

(** [_create_lock] in closed form. *)
Lemma create_lock_run (w : world) :
  _create_lock w =
  let '(r, h, p) := PalEventCreate P (lock (mem w)) true true (pal w) in
  Done (r =? 0)
       (mk_world (mk_lock h 0) (cur_tid w) p
          (calls w ++ [mk_call (CallEventCreate true true)
                               (mk_lock (lock (mem w)) 0)])
          (__create_lock_result w)).
Proof.
  run. destruct (PalEventCreate P (lock (mem w)) true true (pal w)) as [[r h] p].
  reflexivity.
Qed.

End Lifecycle.

(* ===================================================================== *)
(** ** Acquire: the retry loop *)
(* ===================================================================== *)

Lemma wait_count_app (l1 l2 : list call_record) :
  wait_count (l1 ++ l2) = (wait_count l1 + wait_count l2)%nat.
Proof. unfold wait_count. rewrite List.filter_app, length_app. reflexivity. Qed.

Lemma wait_count_replicate (k : nat) (c : call_record) :
  is_wait c = true -> wait_count (replicate k c) = k.
Proof.
  intros Hc. unfold wait_count.
  induction k as [|k IH]; cbn [replicate List.filter]; [reflexivity|].
  rewrite Hc. cbn [length]. f_equal. exact IH.
Qed.

Section Acquire.

Context {P : Pal}.

Local Abbreviation world := (@world P).

(** The loop, when the platform answers [n] errors and then a success. *)
Lemma wait_loop_run (n : nat) :
  forall (fuel : nat) (w : world) (p' : pal_state P),
    wait_errors_then_success n (lock (mem w)) (pal w) = Some p' ->
    (n < fuel)%nat ->
    wait_loop fuel w =
    Done tt (mk_world (mem w) (cur_tid w) p'
               (calls w ++ replicate (S n) (wait_record w))
               (__create_lock_result w)).
Proof.
  induction n as [|n IH]; intros fuel w p' Hw Hf;
    (destruct fuel as [|fuel]; [lia|]);
    cbn [wait_loop wait_errors_then_success] in *;
    unfold bind, load_lock, pal_event_wait, record;
    destruct (PalEventWait P (lock (mem w)) None (pal w)) as [[r p1]|];
    try discriminate; destruct (r <? 0) eqn:Hr; try discriminate.
  - injection Hw as <-. reflexivity.
  - rewrite (IH fuel _ p'); cbn [mem pal calls cur_tid __create_lock_result];
      [|exact Hw|lia].
    unfold wait_record. cbn [mem]. rewrite <- app_assoc. reflexivity.
Qed.

(** Conversely the loop is left only through a wait that succeeded, after
    fewer failed waits than the bound. *)
Lemma wait_loop_done (fuel : nat) :
  forall (w w' : world) (a : unit),
    wait_loop fuel w = Done a w' ->
    exists n, (n < fuel)%nat /\
      wait_errors_then_success n (lock (mem w)) (pal w) = Some (pal w') /\
      mem w' = mem w /\ cur_tid w' = cur_tid w.
Proof.
  induction fuel as [|fuel IH]; intros w w' a H; [discriminate|].
  cbn [wait_loop] in H. unfold bind, load_lock, pal_event_wait, record in H.
  destruct (PalEventWait P (lock (mem w)) None (pal w)) as [[r p1]|] eqn:Hp;
    [|discriminate].
  destruct (r <? 0) eqn:Hr.
  - apply IH in H as (n & Hn & Hw & Hm & Ht).
    cbn [mem pal cur_tid] in *. exists (S n). split; [lia|].
    cbn [wait_errors_then_success]. rewrite Hp, Hr. auto.
  - injection H as _ <-. exists O. split; [lia|].
    cbn [wait_errors_then_success mem pal cur_tid]. rewrite Hp, Hr. auto.
Qed.

(** [_lock] in closed form, when the platform answers [n] errors and then a
    success. *)
Lemma lock_run (n fuel : nat) (w : world) (p' : pal_state P) :
  non_null (lock (mem w)) = true ->
  wait_errors_then_success n (lock (mem w)) (pal w) = Some p' ->
  (n < fuel)%nat ->
  _lock fuel w =
  Done tt (mk_world (mk_lock (lock (mem w)) (cur_tid w)) (cur_tid w) p'
             (calls w ++ replicate (S n) (wait_record w))
             (__create_lock_result w)).
Proof.
  intros Hv Hw Hf. unfold _lock, bind at 1 2 3, load_lock, assert.
  rewrite Hv, (wait_loop_run n fuel w p' Hw Hf). reflexivity.
Qed.

End Acquire.

Section AcquireReturns.

Context {P : Pal}.

Local Abbreviation world := (@world P).

(** What is known when [_lock] has returned. *)
Lemma lock_done (fuel : nat) (w w' : world) (a : unit) :
  _lock fuel w = Done a w' ->
  non_null (lock (mem w)) = true /\
  mem w' = mk_lock (lock (mem w)) (cur_tid w) /\
  cur_tid w' = cur_tid w /\
  exists n, (n < fuel)%nat /\
    wait_errors_then_success n (lock (mem w)) (pal w) = Some (pal w').
Proof.
  unfold _lock, bind at 1 2 3, load_lock, assert.
  destruct (non_null (lock (mem w))) eqn:Hv; [|discriminate].
  destruct (wait_loop fuel w) as [u w1| | |] eqn:Hl; try discriminate.
  unfold bind, get_cur_tid, store_owner, set_mem. intros H. injection H as _ <-.
  apply wait_loop_done in Hl as (n & Hn & Hw & Hm & Ht).
  cbn [mem cur_tid pal]. rewrite Hm, Ht.
  repeat split. exists n. split; assumption.
Qed.

(** With an empty handle the assertion of [_lock] fails before anything is
    done. *)
Lemma lock_null (fuel : nat) (w : world) :
  is_null (lock (mem w)) = true -> _lock fuel w = AssertFailed w.
Proof.
  intros Hn. unfold _lock, bind at 1 2, load_lock, assert, non_null.
  rewrite Hn. reflexivity.
Qed.

Lemma unlock_null (w : world) :
  is_null (lock (mem w)) = true -> _unlock w = AssertFailed w.
Proof.
  intros Hn. unfold _unlock, bind at 1 2, load_lock, assert, non_null.
  rewrite Hn. reflexivity.
Qed.

End AcquireReturns.

Lemma is_null_spec (h : PAL_HANDLE) : is_null h = true <-> h = NULL.
Proof. unfold is_null. apply Z.eqb_eq. Qed.

Lemma non_null_spec (h : PAL_HANDLE) : non_null h = true <-> h <> NULL.
Proof.
  unfold non_null, is_null. rewrite negb_true_iff. apply Z.eqb_neq.
Qed.

(* ===================================================================== *)
(** ** The statements about one calling thread *)
(* ===================================================================== *)

(** C2 (retry correctness of acquire).  On a lock with a valid handle, if the
    platform's wait reports an error [N] times and then succeeds, [_lock]
    returns (any bound above [N] on the iterations is enough), it has made
    exactly [N + 1] waits and no other call, and the owner field is the
    identifier of the calling thread.  [_lock] has no failure to return: when
    it returns at all, its last wait succeeded and the owner field is the
    caller's identifier. *)
Theorem lock_retry_correct :
  forall (P : Pal) (w : @world P),
    (forall (N fuel : nat) (p' : pal_state P),
        non_null (lock (mem w)) = true ->
        wait_errors_then_success N (lock (mem w)) (pal w) = Some p' ->
        (N < fuel)%nat ->
        exists w',
          _lock fuel w = Done tt w' /\
          owner (mem w') = cur_tid w /\
          lock (mem w') = lock (mem w) /\
          pal w' = p' /\
          calls w' = calls w ++ replicate (S N) (wait_record w) /\
          wait_count (calls w') = (wait_count (calls w) + (N + 1))%nat) /\
    (forall (fuel : nat) (a : unit) (w' : @world P),
        _lock fuel w = Done a w' ->
        owner (mem w') = cur_tid w /\
        exists N, (N < fuel)%nat /\
          wait_errors_then_success N (lock (mem w)) (pal w) = Some (pal w')).
Proof.
  intros P w. split.
  - intros N fuel p' Hv Hw Hf. eexists. split; [exact (lock_run N fuel w p' Hv Hw Hf)|].
    cbn [mem pal calls lock owner]. repeat split.
    rewrite wait_count_app, wait_count_replicate by reflexivity. lia.
  - intros fuel a w' H. apply lock_done in H as (_ & Hm & _ & Hex).
    rewrite Hm. split; [reflexivity|exact Hex].
Qed.

(** C3 (what the header does on an empty handle).  On a lock whose handle is
    empty, [_lock] and [_unlock] fail their assertion before any call leaves
    the header and before the lock is written.  [_destroy_lock] has no such
    assertion: the first thing that leaves it is the call of
    [PalObjectDestroy] on the empty handle, issued with the lock object as it
    was. *)
Theorem destroy_lock_skips_handle_check :
  forall (P : Pal) (w : @world P),
    is_null (lock (mem w)) = true ->
    (forall fuel, _lock fuel w = AssertFailed w) /\
    _unlock w = AssertFailed w /\
    head (new_calls w (final (_destroy_lock w))) =
      Some (mk_call (CallObjectDestroy NULL) (mem w)).
Proof.
  intros P w Hn. split; [|split].
  - intros fuel. apply lock_null, Hn.
  - apply unlock_null, Hn.
  - rewrite destroy_lock_run. unfold new_calls. cbn [final calls].
    rewrite drop_app_length. apply is_null_spec in Hn. rewrite Hn. reflexivity.
Qed.

(** C4 (release ordering).  On a lock with a valid handle [_unlock] returns
    after exactly one call, the [PalEventSet] on the lock's handle, and at
    the instant of that call the owner field was already 0, whoever owned the
    lock before. *)
Theorem unlock_clears_owner_before_signal :
  forall (P : Pal) (w : @world P),
    non_null (lock (mem w)) = true ->
    exists w',
      _unlock w = Done tt w' /\
      calls w' = calls w ++ [mk_call (CallEventSet (lock (mem w)))
                                      (mk_lock (lock (mem w)) 0)] /\
      (forall c, In c (drop (length (calls w)) (calls w')) ->
                 what c = CallEventSet (lock (mem w)) /\ owner (seen c) = 0) /\
      mem w' = mk_lock (lock (mem w)) 0 /\
      pal w' = PalEventSet P (lock (mem w)) (pal w).
Proof.
  intros P w Hv. eexists. split; [exact (unlock_run w Hv)|].
  cbn [mem pal calls]. repeat split.
  - rewrite drop_app_length in H. destruct H as [<-|[]]. reflexivity.
  - rewrite drop_app_length in H. destruct H as [<-|[]]. reflexivity.
Qed.

(** The double's [PalEventCreate] honours the contract on its handle. *)
Lemma td_create_gives_handle : create_gives_handle test_double.
Proof.
  intros old i a p. cbn [PalEventCreate test_double]. unfold td_create.
  destruct (create_script p) as [|r rest]; [intros _; discriminate|].
  destruct (r =? 0) eqn:Hr; [intros _; discriminate|].
  intros ->. discriminate.
Qed.

(** A successful [_create_lock] on the double, spelled out. *)
Lemma td_create_lock_true (w0 w : @world test_double) :
  _create_lock w0 = Done true w ->
  exists rest,
    w = @mk_world test_double (mk_lock (Z.pos (next_handle (pal w0))) 0)
          (cur_tid w0)
          (mk_td (<[Z.pos (next_handle (pal w0)) := mk_event true true]>
                    (events (pal w0)))
                 (Pos.succ (next_handle (pal w0))) rest (wait_script (pal w0)))
          (calls w0 ++ [mk_call (CallEventCreate true true)
                                (mk_lock (lock (mem w0)) 0)])
          (__create_lock_result w0).
Proof.
  rewrite create_lock_run. cbn [PalEventCreate test_double].
  unfold td_create. destruct (create_script (pal w0)) as [|r rest].
  - intros H. injection H as <-. exists []. reflexivity.
  - destruct (r =? 0) eqn:Hr.
    + intros H. injection H as <-. exists rest. reflexivity.
    + rewrite Hr. discriminate.
Qed.

(** C5 (create).  For every platform, [_create_lock] makes exactly one call,
    [PalEventCreate] in the initially-signaled, auto-clearing mode, and at the
    instant of that call the owner field is already 0; it returns true
    exactly when that call returned 0; and whatever it returns, the owner
    field is 0 afterwards.  On the test double, the first [_lock] after a
    [_create_lock] that returned true returns after a single wait, which
    consumed the initial signal. *)
Theorem create_lock_behaviour :
  (forall (P : Pal) (w : @world P),
      exists (r : Z) (h : PAL_HANDLE) (p : pal_state P) (w' : @world P),
        PalEventCreate P (lock (mem w)) true true (pal w) = (r, h, p) /\
        _create_lock w = Done (r =? 0) w' /\
        calls w' = calls w ++ [mk_call (CallEventCreate true true)
                                        (mk_lock (lock (mem w)) 0)] /\
        ((r =? 0) = true <-> r = 0) /\
        mem w' = mk_lock h 0 /\
        pal w' = p /\
        owner (mem w') = 0) /\
  (forall (w0 w : @world test_double) (fuel : nat),
      _create_lock w0 = Done true w ->
      wait_script (pal w0) = [] ->
      exists w',
        _lock (S fuel) w = Done tt w' /\
        calls w' = calls w ++ [wait_record w] /\
        owner (mem w') = cur_tid w0 /\
        events (pal w') !! lock (mem w') = Some (mk_event false true)).
Proof.
  split.
  - intros P w.
    destruct (PalEventCreate P (lock (mem w)) true true (pal w)) as [[r h] p] eqn:Hc.
    exists r, h, p. eexists. split; [reflexivity|].
    split; [rewrite create_lock_run, Hc; reflexivity|].
    cbn [mem pal calls owner]. repeat split; apply Z.eqb_eq; assumption.
  - intros w0 w fuel Hc Hs.
    destruct (td_create_lock_true w0 w Hc) as [rest ->].
    eexists. split.
    + apply (lock_run 0 (S fuel)); [reflexivity| |lia].
      cbn [wait_errors_then_success PalEventWait test_double mem pal lock].
      unfold td_wait. cbn [wait_script]. rewrite Hs.
      unfold td_serve_wait. cbn [events].
      rewrite lookup_insert_eq. cbn [signaled auto_clear Z.ltb Z.compare].
      reflexivity.
    + cbn [mem pal calls owner lock events].
      rewrite lookup_insert_eq. repeat split.
Qed.

(** C6 (destroy).  [_destroy_lock] makes exactly one call, [PalObjectDestroy]
    on the handle the lock holds, issued while the lock object is still as it
    was, and then does what [_clear_lock] does: it returns with the handle and
    the owner both empty, the lock object being the one [_clear_lock] leaves.
    This holds for every lock, so for every lock with a valid handle. *)
Theorem destroy_lock_releases_then_clears :
  forall (P : Pal) (w : @world P),
    exists w',
      _destroy_lock w = Done tt w' /\
      calls w' = calls w ++ [mk_call (CallObjectDestroy (lock (mem w))) (mem w)] /\
      pal w' = PalObjectDestroy P (lock (mem w)) (pal w) /\
      lock (mem w') = NULL /\
      owner (mem w') = 0 /\
      mem w' = mem (final (_clear_lock w)) /\
      _destroy_lock w = (pal_object_destroy (lock (mem w)) ;; _clear_lock) w.
Proof.
  intros P w. eexists. split; [apply destroy_lock_run|].
  cbn [mem pal calls lock owner]. repeat split.
Qed.

(** The platform calls among [l1 ++ l2]. *)
Lemma pal_calls_app (l1 l2 : list call_record) :
  pal_calls (l1 ++ l2) = pal_calls l1 ++ pal_calls l2.
Proof. apply List.filter_app. Qed.

(* ===================================================================== *)
(** ** Running the macros *)
(* ===================================================================== *)

Section MacroRuns.

Context {P : Pal}.

(** One evaluation of the argument and the call, in closed form. *)
Lemma apply_to_run {A} (u : nat) (func : @M P A) (l : macro_arg) (c : @caller P) :
  Traced.apply_to u func l c =
  call_on u (first_value l (c_vars c)) func (set_vars (once l (c_vars c)) c).
Proof.
  unfold Traced.apply_to, cbind, value, first_value, once, set_vars.
  destruct (eval l (c_vars c)) as [a v]. reflexivity.
Qed.

(** The trace record, in closed form. *)
Lemma trace_handle_run (u : nat) (name : string) (l : macro_arg) (c : @caller P)
    (la : libos_lock) :
  c_heap c !! first_value l (c_vars c) = Some la ->
  Traced.trace_handle u name l c =
  Returned tt
    (mk_caller (c_heap c) (once l (c_vars c)) (c_tid c) (c_pal c)
       (c_calls c ++
        [mk_call (CallLogTrace (Traced.trace_fmt name (spelling l)) (lock la)) la])
       (<[u := result_cell u c]> (c_results c))).
Proof.
  unfold Traced.trace_handle, cbind, value, first_value, once.
  destruct (eval l (c_vars c)) as [a v]. cbn [fst snd]. intros Ha.
  unfold call_on, enter. cbn [c_heap c_tid c_pal c_calls]. rewrite Ha.
  unfold bind, load_lock, log_trace, record, leave, result_cell.
  cbn [mem cur_tid pal calls __create_lock_result c_heap c_vars c_results].
  rewrite (insert_id _ _ _ Ha). reflexivity.
Qed.

Lemma trace_handle_wild (u : nat) (name : string) (l : macro_arg) (c : @caller P) :
  c_heap c !! first_value l (c_vars c) = None ->
  Traced.trace_handle u name l c =
  Ended WildPointer (set_vars (once l (c_vars c)) c).
Proof.
  unfold Traced.trace_handle, cbind, value, first_value, once, set_vars.
  destruct (eval l (c_vars c)) as [a v]. cbn [fst snd]. intros Ha.
  unfold call_on, enter. cbn [c_heap]. rewrite Ha. reflexivity.
Qed.

End MacroRuns.

(** The macro [clear_lock], traced or not, on any argument: it issues no
    platform call and leaves the platform alone; when it returns, the lock
    object that [_clear_lock] was handed is empty; and it can end without
    returning only when its argument points to no lock object. *)
Lemma clear_macro_facts {P : Pal} (tracing : bool) (u : nat) (l : macro_arg)
    (c : @caller P) :
  pal_calls (c_calls (after (Traced.clear_lock tracing u l c))) =
    pal_calls (c_calls c) /\
  c_pal (after (Traced.clear_lock tracing u l c)) = c_pal c /\
  match Traced.clear_lock tracing u l c with
  | Returned _ c' =>
      c_heap c' !! (if tracing then second_value l (c_vars c)
                    else first_value l (c_vars c)) = Some empty_lock
  | Ended e _ => e = WildPointer
  end.
Proof.
  destruct tracing; unfold Traced.clear_lock.
  - unfold Traced.LOCK_PRE_TRACE, cbind.
    destruct (c_heap c !! first_value (replaced l) (c_vars c)) as [la|] eqn:Ha.
    + rewrite (trace_handle_run u _ (replaced l) c la Ha), apply_to_run.
      unfold call_on, enter, set_vars. cbn [c_heap c_vars c_tid c_pal c_calls].
      change (first_value (replaced l)) with (first_value l).
      change (once (replaced l)) with (once l).
      fold (second_value l (c_vars c)).
      destruct (c_heap c !! second_value l (c_vars c)) as [lb|];
        cbn [after c_calls c_pal c_heap leave _clear_lock];
        rewrite ?clear_lock_run; unfold leave, set_mem;
        cbn [after c_calls c_pal c_heap mem pal calls];
        rewrite pal_calls_app; cbn; rewrite app_nil_r;
        repeat split; apply lookup_insert_eq.
    + rewrite (trace_handle_wild u _ (replaced l) c Ha). cbn. auto.
  - rewrite apply_to_run. unfold call_on, enter, set_vars.
    cbn [c_heap c_vars c_tid c_pal c_calls].
    destruct (c_heap c !! first_value l (c_vars c)) as [la|];
      cbn [after c_calls c_pal c_heap]; rewrite ?clear_lock_run;
      unfold leave, set_mem; cbn [after c_calls c_pal c_heap mem pal calls];
      repeat split; apply lookup_insert_eq.
Qed.

(** C7 (clear).  For every lock state [_clear_lock] returns with the handle
    and the owner both empty, without any call and without a change to the
    platform; running it twice is running it once; on a lock that is already
    empty it changes nothing.  The macro [clear_lock], traced or not and
    whatever its argument, adds no platform call either and leaves the
    platform alone, and the lock object it has cleared is empty. *)
Theorem clear_lock_idempotent :
  forall (P : Pal) (w : @world P),
    (exists w',
        _clear_lock w = Done tt w' /\
        lock (mem w') = NULL /\
        owner (mem w') = 0 /\
        calls w' = calls w /\
        pal w' = pal w /\
        _clear_lock w' = Done tt w') /\
    (_clear_lock ;; _clear_lock) w = _clear_lock w /\
    (forall t p cs b,
        _clear_lock (@mk_world P empty_lock t p cs b) =
        Done tt (@mk_world P empty_lock t p cs b)) /\
    (forall (tracing : bool) (u : nat) (l : macro_arg) (c : @caller P),
        pal_calls (c_calls (after (Traced.clear_lock tracing u l c))) =
          pal_calls (c_calls c) /\
        c_pal (after (Traced.clear_lock tracing u l c)) = c_pal c /\
        match Traced.clear_lock tracing u l c with
        | Returned _ c' =>
            c_heap c' !! (if tracing then second_value l (c_vars c)
                          else first_value l (c_vars c)) = Some empty_lock
        | Ended e _ => e = WildPointer
        end).
Proof.
  intros P w. split; [|split; [|split]].
  - eexists. split; [apply clear_lock_run|]. repeat split.
  - reflexivity.
  - reflexivity.
  - intros tracing u l c. apply clear_macro_facts.
Qed.

(** [locked] in closed form. *)
Lemma locked_run {P : Pal} (w : @world P) :
  locked w =
  Done (non_null (lock (mem w)) && (cur_tid w =? owner (mem w))) w.
Proof.
  run. unfold non_null. destruct (is_null (lock (mem w))); reflexivity.
Qed.

(** C8 (debug ownership query).  [locked] changes nothing; it returns false
    when the handle is empty and otherwise whether the caller's identifier
    equals the owner field.  So once a thread's [_lock] has returned,
    [locked] is true for it and false for every thread with another
    identifier, and once its [_unlock] has returned [locked] is false for it,
    thread identifiers being different from 0. *)
Theorem locked_reports_ownership :
  forall (P : Pal) (w : @world P),
    locked w = Done (non_null (lock (mem w)) && (cur_tid w =? owner (mem w))) w /\
    (is_null (lock (mem w)) = true -> locked w = Done false w) /\
    (non_null (lock (mem w)) = true ->
     locked w = Done (cur_tid w =? owner (mem w)) w /\
     (locked w = Done true w <-> cur_tid w = owner (mem w))) /\
    (forall (fuel : nat) (w1 : @world P),
        _lock fuel w = Done tt w1 ->
        locked w1 = Done true w1 /\
        (forall u, u <> cur_tid w ->
                   locked (as_thread u w1) = Done false (as_thread u w1)) /\
        (forall w2, cur_tid w <> 0 -> _unlock w1 = Done tt w2 ->
                    locked w2 = Done false w2)).
Proof.
  intros P w. split; [apply locked_run|]. split; [|split].
  - intros Hn. rewrite locked_run. unfold non_null. rewrite Hn. reflexivity.
  - intros Hv. rewrite locked_run, Hv. split; [reflexivity|]. split.
    + intros H. injection H as H. apply Z.eqb_eq, H.
    + intros ->. cbn [andb]. rewrite Z.eqb_refl. reflexivity.
  - intros fuel w1 Hl. apply lock_done in Hl as (Hv & Hm & Ht & _).
    split; [|split].
    + rewrite locked_run, Hm, Ht. cbn [lock owner]. rewrite Hv, Z.eqb_refl.
      reflexivity.
    + intros u Hu. rewrite locked_run. cbn [as_thread mem cur_tid].
      rewrite Hm. cbn [lock owner]. rewrite Hv.
      apply Z.eqb_neq in Hu. rewrite Hu. reflexivity.
    + intros w2 H0 Hu. rewrite unlock_run in Hu by (rewrite Hm; exact Hv).
      injection Hu as <-. rewrite locked_run. cbn [mem cur_tid lock owner].
      rewrite Hm, Ht. cbn [lock]. rewrite Hv.
      apply Z.eqb_neq in H0. rewrite H0. reflexivity.
Qed.

(* ===================================================================== *)
(** ** The tracing macros and their argument *)
(* ===================================================================== *)

Lemma same_site_refl {P : Pal} (c : @caller P) : same_site c c.
Proof. repeat split. Qed.

Ltac sites :=
  unfold same_site, pal_calls, leave, set_vars, result_cell;
  cbn [c_heap c_vars c_tid c_pal c_calls c_results mem cur_tid pal calls
       __create_lock_result];
  simpl; rewrite ?List.filter_app, ?insert_insert_eq; simpl;
  rewrite ?app_nil_r; repeat split.

Section Transparency.

Context {P : Pal}.

Variable u : nat.
Variable l : macro_arg.
Hypothesis Hpure : side_effect_free l.

Lemma pure_once (v : gmap string Z) : once (replaced l) v = v.
Proof. exact (Hpure v). Qed.

(** A macro that logs first, on an argument without side effects. *)
Lemma pre_trace_pure {A} (name : string) (func : @M P A) (c : @caller P)
    (la : libos_lock) :
  c_heap c !! first_value l (c_vars c) = Some la ->
  Traced.LOCK_PRE_TRACE u name func (replaced l) c =
  call_on u (first_value l (c_vars c)) func
    (mk_caller (c_heap c) (c_vars c) (c_tid c) (c_pal c)
       (c_calls c ++
        [mk_call (CallLogTrace (Traced.trace_fmt name (expanded l)) (lock la)) la])
       (<[u := result_cell u c]> (c_results c))).
Proof.
  intros Ha. unfold Traced.LOCK_PRE_TRACE, cbind.
  rewrite (trace_handle_run u name (replaced l) c la Ha), apply_to_run.
  cbn [c_vars]. rewrite !pure_once. reflexivity.
Qed.

Lemma pre_trace_wild {A} (name : string) (func : @M P A) (c : @caller P) :
  c_heap c !! first_value l (c_vars c) = None ->
  Traced.LOCK_PRE_TRACE u name func (replaced l) c =
  Ended WildPointer (set_vars (c_vars c) c).
Proof.
  intros Ha. unfold Traced.LOCK_PRE_TRACE, cbind.
  rewrite (trace_handle_wild u name (replaced l) c Ha), pure_once. reflexivity.
Qed.

Lemma apply_pure {A} (func : @M P A) (c : @caller P) :
  Traced.apply_to u func l c =
  call_on u (first_value l (c_vars c)) func (set_vars (c_vars c) c).
Proof. rewrite apply_to_run, (Hpure (c_vars c)). reflexivity. Qed.

Lemma clear_lock_transparent (c : @caller P) :
  same_result (Traced.clear_lock true u l c) (Traced.clear_lock false u l c).
Proof.
  unfold Traced.clear_lock. rewrite apply_pure.
  destruct (c_heap c !! first_value l (c_vars c)) as [la|] eqn:Ha.
  - rewrite (pre_trace_pure _ _ c la Ha). unfold call_on, enter.
    cbn [c_heap c_vars c_tid c_pal c_calls set_vars]. rewrite Ha.
    rewrite !clear_lock_run. cbn [same_result]. split; [reflexivity|]. sites.
  - rewrite (pre_trace_wild _ _ c Ha). unfold call_on, enter.
    cbn [c_heap set_vars]. rewrite Ha. split; [reflexivity|apply same_site_refl].
Qed.

Lemma destroy_lock_transparent (c : @caller P) :
  same_result (Traced.destroy_lock true u l c) (Traced.destroy_lock false u l c).
Proof.
  unfold Traced.destroy_lock. rewrite apply_pure.
  destruct (c_heap c !! first_value l (c_vars c)) as [la|] eqn:Ha.
  - rewrite (pre_trace_pure _ _ c la Ha). unfold call_on, enter.
    cbn [c_heap c_vars c_tid c_pal c_calls set_vars]. rewrite Ha.
    rewrite !destroy_lock_run. cbn [same_result]. split; [reflexivity|]. sites.
  - rewrite (pre_trace_wild _ _ c Ha). unfold call_on, enter.
    cbn [c_heap set_vars]. rewrite Ha. split; [reflexivity|apply same_site_refl].
Qed.

Lemma unlock_transparent (c : @caller P) :
  same_result (Traced.unlock true u l c) (Traced.unlock false u l c).
Proof.
  unfold Traced.unlock. rewrite apply_pure.
  destruct (c_heap c !! first_value l (c_vars c)) as [la|] eqn:Ha.
  - rewrite (pre_trace_pure _ _ c la Ha). unfold call_on, enter.
    cbn [c_heap c_vars c_tid c_pal c_calls set_vars]. rewrite Ha.
    destruct (non_null (lock la)) eqn:Hv.
    + rewrite !unlock_run by exact Hv. cbn [same_result].
      split; [reflexivity|]. sites.
    + assert (Hn : is_null (lock la) = true)
        by (unfold non_null in Hv; destruct (is_null (lock la)); [reflexivity|discriminate]).
      rewrite !unlock_null by exact Hn. cbn [same_result].
      split; [reflexivity|]. sites.
  - rewrite (pre_trace_wild _ _ c Ha). unfold call_on, enter.
    cbn [c_heap set_vars]. rewrite Ha. split; [reflexivity|apply same_site_refl].
Qed.

Lemma lock_transparent (fuel : nat) (c : @caller P) :
  same_result (Traced.lock true u fuel l c) (Traced.lock false u fuel l c).
Proof.
  unfold Traced.lock, Traced.LOCK_POST_TRACE, cbind.
  rewrite apply_pure, apply_to_run, pure_once.
  change (first_value (replaced l)) with (first_value l).
  unfold call_on at 1 2, enter. cbn [c_heap c_vars c_tid c_pal c_calls set_vars].
  destruct (c_heap c !! first_value l (c_vars c)) as [la|] eqn:Ha;
    [|split; [reflexivity|apply same_site_refl]].
  destruct (_lock fuel _) as [[] w1|w1|w1|w1];
    try (split; [reflexivity|apply same_site_refl]).
  erewrite trace_handle_run
    by (unfold leave; cbn [c_heap c_vars]; apply lookup_insert_eq).
  cbn [same_result]. split; [reflexivity|]. sites. apply pure_once.
Qed.

Lemma create_lock_transparent (c : @caller P) :
  same_result (Traced.create_lock true u l c) (Traced.create_lock false u l c).
Proof.
  unfold Traced.create_lock, Traced.create_lock_assign,
    Traced.create_lock_trace, Traced.create_lock_yield, cbind.
  rewrite !apply_pure.
  unfold call_on at 1 2, enter. cbn [c_heap c_vars c_tid c_pal c_calls set_vars].
  destruct (c_heap c !! first_value l (c_vars c)) as [la|] eqn:Ha;
    [|split; [reflexivity|apply same_site_refl]].
  unfold bind at 1. rewrite create_lock_run. cbn [mem pal].
  destruct (PalEventCreate P (lock la) true true (c_pal c)) as [[r h] p].
  unfold store_create_lock_result.
  erewrite trace_handle_run
    by (unfold leave; cbn [c_heap c_vars]; apply lookup_insert_eq).
  unfold read_result, result_cell, leave.
  cbn [c_results mem cur_tid pal calls __create_lock_result c_heap c_vars
       c_tid c_pal c_calls].
  rewrite !lookup_insert_eq. cbn [default same_result].
  split; [reflexivity|]. sites. apply (Hpure (c_vars c)).
Qed.

End Transparency.

(** The values and effects of [x++]. *)
Lemma post_increment_values (x : string) (v : gmap string Z) (a : Z) :
  v !! x = Some a ->
  first_value (post_increment x) v = a /\
  once (post_increment x) v = <[x := a + 1]> v /\
  second_value (post_increment x) v = a + 1 /\
  twice (post_increment x) v = <[x := a + 2]> v.
Proof.
  intros Hx. unfold second_value, twice, first_value, once, post_increment.
  cbn [eval fst snd]. rewrite Hx. cbn [default].
  rewrite lookup_insert_eq. cbn [default]. rewrite insert_insert_eq.
  repeat split. unfold id. replace (a + 1 + 1) with (a + 2) by lia.
  reflexivity.
Qed.

(** [unlock(x++)] without and with tracing. *)
Lemma unlock_post_increment {P : Pal} (u : nat) (x : string) (c : @caller P)
    (a : Z) (la lb : libos_lock) :
  c_vars c !! x = Some a ->
  c_heap c !! a = Some la ->
  c_heap c !! (a + 1) = Some lb ->
  non_null (lock la) = true ->
  non_null (lock lb) = true ->
  Traced.unlock false u (post_increment x) c =
    Returned tt
      (mk_caller (<[a := mk_lock (lock la) 0]> (c_heap c))
         (<[x := a + 1]> (c_vars c)) (c_tid c)
         (PalEventSet P (lock la) (c_pal c))
         (c_calls c ++ [mk_call (CallEventSet (lock la)) (mk_lock (lock la) 0)])
         (<[u := result_cell u c]> (c_results c))) /\
  Traced.unlock true u (post_increment x) c =
    Returned tt
      (mk_caller (<[a + 1 := mk_lock (lock lb) 0]> (c_heap c))
         (<[x := a + 2]> (c_vars c)) (c_tid c)
         (PalEventSet P (lock lb) (c_pal c))
         (c_calls c ++
          [mk_call (CallLogTrace (Traced.trace_fmt "_unlock" (String.append x "++"))
                                 (lock la)) la;
           mk_call (CallEventSet (lock lb)) (mk_lock (lock lb) 0)])
         (<[u := result_cell u c]> (c_results c))).
Proof.
  intros Hx Ha Hb Hva Hvb.
  destruct (post_increment_values x (c_vars c) a Hx) as (H1 & H2 & H3 & H4).
  split.
  - unfold Traced.unlock. rewrite apply_to_run, H1, H2.
    unfold call_on, enter, set_vars. cbn [c_heap c_tid c_pal c_calls c_results].
    rewrite Ha, unlock_run by exact Hva. reflexivity.
  - unfold Traced.unlock, Traced.LOCK_PRE_TRACE, cbind.
    rewrite (trace_handle_run u _ (replaced (post_increment x)) c la)
      by (change (first_value (replaced (post_increment x)))
            with (first_value (post_increment x)); rewrite H1; exact Ha).
    rewrite apply_to_run. cbn [c_vars].
    change (once (replaced (post_increment x))) with (once (post_increment x)).
    change (first_value (replaced (post_increment x)))
      with (first_value (post_increment x)).
    fold (second_value (post_increment x) (c_vars c)).
    fold (twice (post_increment x) (c_vars c)). rewrite H3, H4.
    unfold call_on, enter, set_vars. cbn [c_heap c_tid c_pal c_calls c_results].
    rewrite Hb, unlock_run by exact Hvb.
    unfold leave, result_cell.
    cbn [mem cur_tid pal calls __create_lock_result c_heap c_vars c_results
         lock spelling replaced post_increment expanded].
    rewrite lookup_insert_eq, insert_insert_eq, <- app_assoc. reflexivity.
Qed.

(** C9 (tracing and the argument of the macros).  Without [LOCK_TRACING]
    each macro evaluates its argument once and calls the operation it names
    on the lock object the argument points to.  With [LOCK_TRACING] each
    macro evaluates its argument twice, once for the operation and once for
    the trace record.  For an argument whose evaluation assigns to no
    variable the two expansions end the same way, with the same value, the
    same lock objects, the same platform state and the same platform calls:
    only trace records and [__create_lock_result] differ.  For the argument
    [x++] they do not: the traced [unlock(x++)] prints the handle of the lock
    [x] points to and releases the next one, and [x] ends two locks
    further, where the untraced one releases the lock [x] points to. *)
Theorem tracing_evaluates_argument_twice :
  forall (P : Pal) (u : nat) (fuel : nat) (c : @caller P),
    (forall l,
        Traced.create_lock false u l c =
          call_on u (first_value l (c_vars c)) _create_lock
            (set_vars (once l (c_vars c)) c) /\
        Traced.clear_lock false u l c =
          call_on u (first_value l (c_vars c)) _clear_lock
            (set_vars (once l (c_vars c)) c) /\
        Traced.destroy_lock false u l c =
          call_on u (first_value l (c_vars c)) _destroy_lock
            (set_vars (once l (c_vars c)) c) /\
        Traced.lock false u fuel l c =
          call_on u (first_value l (c_vars c)) (_lock fuel)
            (set_vars (once l (c_vars c)) c) /\
        Traced.unlock false u l c =
          call_on u (first_value l (c_vars c)) _unlock
            (set_vars (once l (c_vars c)) c)) /\
    (forall l,
        side_effect_free l ->
        same_result (Traced.create_lock true u l c) (Traced.create_lock false u l c) /\
        same_result (Traced.clear_lock true u l c) (Traced.clear_lock false u l c) /\
        same_result (Traced.destroy_lock true u l c) (Traced.destroy_lock false u l c) /\
        same_result (Traced.lock true u fuel l c) (Traced.lock false u fuel l c) /\
        same_result (Traced.unlock true u l c) (Traced.unlock false u l c)) /\
    (forall (x : string) (a : Z) (la lb : libos_lock),
        c_vars c !! x = Some a ->
        c_heap c !! a = Some la ->
        c_heap c !! (a + 1) = Some lb ->
        non_null (lock la) = true ->
        non_null (lock lb) = true ->
        owner la <> 0 ->
        exists c1 c2,
          Traced.unlock false u (post_increment x) c = Returned tt c1 /\
          Traced.unlock true u (post_increment x) c = Returned tt c2 /\
          c_heap c1 !! a = Some (mk_lock (lock la) 0) /\
          c_pal c1 = PalEventSet P (lock la) (c_pal c) /\
          c_vars c1 !! x = Some (a + 1) /\
          c_heap c2 !! a = Some la /\
          c_heap c2 !! (a + 1) = Some (mk_lock (lock lb) 0) /\
          c_pal c2 = PalEventSet P (lock lb) (c_pal c) /\
          c_vars c2 !! x = Some (a + 2) /\
          ~ same_result (Traced.unlock true u (post_increment x) c)
                        (Traced.unlock false u (post_increment x) c)).
Proof.
  intros P u fuel c. split; [|split].
  - intros l. unfold Traced.create_lock, Traced.clear_lock,
      Traced.destroy_lock, Traced.lock, Traced.unlock.
    rewrite !apply_to_run. repeat split.
  - intros l Hl. split; [apply create_lock_transparent, Hl|].
    split; [apply clear_lock_transparent, Hl|].
    split; [apply destroy_lock_transparent, Hl|].
    split; [apply lock_transparent, Hl|apply unlock_transparent, Hl].
  - intros x a la lb Hx Ha Hb Hva Hvb Ho.
    destruct (unlock_post_increment u x c a la lb Hx Ha Hb Hva Hvb) as [H1 H2].
    eexists. eexists. split; [exact H1|]. split; [exact H2|].
    cbn [c_heap c_pal c_vars]. rewrite !lookup_insert_eq.
    rewrite lookup_insert_ne by lia.
    do 7 (split; [first [reflexivity | exact Ha]|]).
    rewrite H1, H2. cbn [same_result]. intros [_ [Hh _]]. cbn [c_heap] in Hh.
    assert (Hl : (<[a + 1 := mk_lock (lock lb) 0]> (c_heap c)) !! a =
                 (<[a := mk_lock (lock la) 0]> (c_heap c)) !! a)
      by (rewrite Hh; reflexivity).
    rewrite lookup_insert_eq, lookup_insert_ne, Ha in Hl by lia.
    injection Hl as Hl. apply Ho. rewrite Hl. reflexivity.
Qed.

(** C10 (the query [lock_created]).  [lock_created] changes nothing and
    returns true exactly when the handle is not empty.  Hence it is false
    after [_clear_lock] and after [_destroy_lock], and it is true after a
    [_create_lock] that returned true, on a platform whose successful
    [PalEventCreate] stores a handle that is not null. *)
Theorem lock_created_reports_handle :
  forall (P : Pal) (w : @world P),
    create_gives_handle P ->
    lock_created w = Done (non_null (lock (mem w))) w /\
    (lock_created w = Done true w <-> lock (mem w) <> NULL) /\
    (forall w', _create_lock w = Done true w' -> lock_created w' = Done true w') /\
    (forall w', _clear_lock w = Done tt w' -> lock_created w' = Done false w') /\
    (forall w', _destroy_lock w = Done tt w' -> lock_created w' = Done false w').
Proof.
  intros P w HP. split; [reflexivity|]. split; [|split; [|split]].
  - change (lock_created w) with (Done (non_null (lock (mem w))) w). split.
    + intros H. injection H as H. apply non_null_spec, H.
    + intros H. apply non_null_spec in H. rewrite H. reflexivity.
  - intros w'. rewrite create_lock_run.
    specialize (HP (lock (mem w)) true true (pal w)).
    destruct (PalEventCreate P (lock (mem w)) true true (pal w)) as [[r h] p].
    intros H. injection H as Hr <-.
    change (lock_created ?x) with (Done (non_null (lock (mem x))) x).
    cbn [mem lock]. apply Z.eqb_eq in Hr. apply HP, non_null_spec in Hr.
    rewrite Hr. reflexivity.
  - intros w' H. rewrite clear_lock_run in H. injection H as <-. reflexivity.
  - intros w' H. rewrite destroy_lock_run in H. injection H as <-. reflexivity.
Qed.

(* ===================================================================== *)
(** ** Several threads: the signal is in one place *)
(* ===================================================================== *)

(** The pieces the threads run are the operations, cut where another thread
    may run. *)
Lemma lock_in_pieces (fuel : nat) (w : @world test_double) :
  _lock fuel w = (check_handle ;; wait_loop fuel ;; take_ownership) w.
Proof.
  unfold _lock, check_handle, take_ownership, bind, load_lock, assert.
  destruct (non_null (lock (mem w))); reflexivity.
Qed.

Lemma wait_loop_in_pieces (fuel : nat) (w : @world test_double) :
  wait_loop (S fuel) w =
  (let* r := wait_once in if r <? 0 then wait_loop fuel else ret tt) w.
Proof.
  cbn [wait_loop]. unfold wait_once, bind, load_lock.
  destruct (pal_event_wait (lock (mem w)) None w); reflexivity.
Qed.

Lemma unlock_in_pieces (w : @world test_double) :
  _unlock w = (check_handle ;; drop_ownership ;; signal) w.
Proof.
  unfold _unlock, check_handle, drop_ownership, signal, bind, load_lock, assert.
  destruct (non_null (lock (mem w))); reflexivity.
Qed.

Lemma signals_held_insert (l : list pc) :
  forall (i : nat) (p q : pc),
    l !! i = Some p ->
    (signals_held (<[i := q]> l) + tok p = signals_held l + tok q)%nat.
Proof.
  induction l as [|x l IH]; intros [|i] p q H; try discriminate.
  - injection H as ->.
    change (<[0%nat:=q]> (p :: l)) with (q :: l). cbn [signals_held]. lia.
  - change ((x :: l) !! S i) with (l !! i) in H. specialize (IH i p q H).
    change (<[S i:=q]> (x :: l)) with (x :: <[i:=q]> l).
    cbn [signals_held]. lia.
Qed.

Lemma signals_held_lookup (l : list pc) :
  forall (i : nat) (p : pc), l !! i = Some p -> (tok p <= signals_held l)%nat.
Proof.
  induction l as [|x l IH]; intros [|i] p H; try discriminate.
  - injection H as ->. cbn [signals_held]. lia.
  - change ((x :: l) !! S i) with (l !! i) in H. specialize (IH i p H).
    cbn [signals_held]. lia.
Qed.

(** Two threads that both have a signal account for two signals. *)
Lemma signals_held_two (l : list pc) (i j : nat) (p q : pc) :
  i <> j -> l !! i = Some p -> l !! j = Some q ->
  (tok p + tok q <= signals_held l)%nat.
Proof.
  intros Hij Hi Hj.
  pose proof (signals_held_insert l i p Outside Hi) as H1.
  assert (Hj' : <[i := Outside]> l !! j = Some q)
    by (rewrite list_lookup_insert_ne; assumption).
  pose proof (signals_held_lookup _ j q Hj') as H2.
  cbn [tok has_signal] in H1. lia.
Qed.

Lemma signals_held_replicate (n : nat) : signals_held (replicate n Outside) = O.
Proof. induction n as [|n IH]; [reflexivity|exact IH]. Qed.

Lemma critical_le_signals (l : list pc) :
  (length (List.filter critical l) <= signals_held l)%nat.
Proof.
  induction l as [|p l IH]; [reflexivity|].
  cbn [List.filter signals_held].
  destruct p; cbn [critical tok has_signal length]; lia.
Qed.

Lemma owner_when_tok (i : nat) (p : pc) (o : IDTYPE) :
  owner_when i p = Some o -> tok p = 1%nat.
Proof. destruct p; cbn; intros H; try discriminate; reflexivity. Qed.

(** The invariant after thread [i] has moved from [p] to [q], leaving the
    lock object [sh] and the platform [pl]. *)
Lemma lock_inv_move (s : state) (i : nat) (p q : pc) (sh : libos_lock)
    (pl : td_state) (e' : td_event) :
  lock_inv s ->
  pcs s !! i = Some p ->
  lock sh = lock (shared s) ->
  events pl !! lock sh = Some e' ->
  auto_clear e' = true ->
  ((if signaled e' then 1 else 0) + tok q = event_signals s + tok p)%nat ->
  (signaled e' = true -> owner sh = 0) ->
  (forall o, owner_when i q = Some o -> owner sh = o) ->
  (owner sh = owner (shared s) \/ tok p = 1%nat \/ event_signals s = 1%nat) ->
  lock_inv (mk_state sh pl (<[i := q]> (pcs s))).
Proof.
  intros [Hh _ H1 H0 Ho] Hp Hl He Ha Hs Hu Hq Hrest.
  pose proof (signals_held_insert (pcs s) i p q Hp) as Hins.
  assert (Hev : event_signals (mk_state sh pl (<[i := q]> (pcs s))) =
                if signaled e' then 1%nat else 0%nat)
    by (unfold event_signals, lock_event; cbn [platform shared]; rewrite He; reflexivity).
  constructor; cbn [shared platform pcs].
  - rewrite Hl. exact Hh.
  - exists e'. split; assumption.
  - rewrite Hev. lia.
  - rewrite Hev. destruct (signaled e'); [auto|discriminate].
  - intros j pj o Hj Hw. destruct (decide (j = i)) as [->|Hne].
    + rewrite list_lookup_insert_eq in Hj by (eapply lookup_lt_Some; eauto).
      injection Hj as <-. auto.
    + rewrite list_lookup_insert_ne in Hj by auto.
      pose proof (owner_when_tok j pj o Hw) as Ht.
      pose proof (signals_held_two (pcs s) i j p pj ltac:(auto) Hp Hj) as H2.
      destruct Hrest as [->|[Hr|Hr]]; [eauto|lia|lia].
Qed.

Lemma event_signals_eq (s : state) (e : td_event) :
  lock_event s = Some e -> event_signals s = if signaled e then 1%nat else 0%nat.
Proof. unfold event_signals. intros ->. reflexivity. Qed.

Ltac side Hev :=
  cbn [tok has_signal owner_when signaled auto_clear lock owner];
  try rewrite Hev;
  first [ assumption | reflexivity | discriminate | lia
        | (left; reflexivity) | (right; left; reflexivity)
        | (right; right; reflexivity) | idtac ].

(** The answers of the double to a wait on a live auto-clearing event. *)
Lemma td_wait_cases (h : PAL_HANDLE) (s : td_state) (e : td_event) :
  events s !! h = Some e -> auto_clear e = true ->
  match td_wait h None s with
  | None => signaled e = false
  | Some (r, s') =>
      (r < 0 /\ events s' = events s) \/
      (r = 0 /\ signaled e = true /\
       events s' = <[h := mk_event false true]> (events s))
  end.
Proof.
  intros He Ha. unfold td_wait, td_serve_wait. rewrite He, Ha.
  destruct (wait_script s) as [|r rest].
  - destruct (signaled e); [right|]; auto.
  - destruct (r <? 0) eqn:Hr.
    + left. apply Z.ltb_lt in Hr. auto.
    + destruct (signaled e); [right|]; auto.
Qed.

(** Every step of every thread keeps the invariant. *)
Lemma step_inv (i : nat) (s s' : state) :
  lock_inv s -> step i s = Some s' -> lock_inv s'.
Proof.
  intros Hinv Hs. pose proof Hinv as [Hh (e & He & Ha) H1 H0 Ho].
  pose proof (event_signals_eq s e He) as Hev.
  pose proof (signals_held_lookup (pcs s) i) as Hle.
  unfold step in Hs.
  destruct (pcs s !! i) as [p|] eqn:Hp; [|discriminate].
  specialize (Hle p eq_refl). specialize (Ho i p).
  unfold lock_event in He.
  destruct p; unfold atomically, check_handle, wait_once, take_ownership,
    drop_ownership, signal, view, td_world in Hs; run;
    cbn [owner_when tok has_signal] in *.
  - (* Outside: the assertion of [_lock] *)
    rewrite Hh in Hs. injection Hs as <-.
    apply (lock_inv_move s i Outside LockEntered _ _ e); side Hev.
    + intros Hsg. apply H0. rewrite Hev, Hsg. reflexivity.
  - (* LockEntered: one wait *)
    unfold pal_event_wait, record in Hs.
    cbn [PalEventWait test_double mem pal calls cur_tid] in Hs.
    pose proof (td_wait_cases _ _ e He Ha) as Hw.
    destruct (td_wait (lock (shared s)) None (platform s)) as [[r p']|];
      [|discriminate].
    injection Hs as <-. cbn [mem pal].
    destruct Hw as [[Hr Hevs]|(-> & Hsg & Hevs)].
    + apply Z.ltb_lt in Hr. rewrite Hr.
      apply (lock_inv_move s i LockEntered LockEntered _ _ e); side Hev.
      * rewrite Hevs. exact He.
      * intros Hsg. apply H0. rewrite Hev, Hsg. reflexivity.
    + cbn [Z.ltb Z.compare].
      apply (lock_inv_move s i LockEntered LockWoken _ _ (mk_event false true));
        side Hev.
      * rewrite Hevs. apply lookup_insert_eq.
      * rewrite Hsg. reflexivity.
      * intros o Ho'. injection Ho' as <-. apply H0. rewrite Hev, Hsg. reflexivity.
  - (* LockWoken: the owner is stored *)
    injection Hs as <-.
    apply (lock_inv_move s i LockWoken Holding _ _ e); side Hev.
    + destruct (signaled e); [lia|discriminate].
    + intros o Ho'. injection Ho' as <-. reflexivity.
  - (* Holding: the assertion of [_unlock] *)
    rewrite Hh in Hs. injection Hs as <-.
    apply (lock_inv_move s i Holding UnlockEntered _ _ e); side Hev.
    + intros Hsg. apply H0. rewrite Hev, Hsg. reflexivity.
    + intros o Ho'. exact (Ho o Hp Ho').
  - (* UnlockEntered: the owner is cleared *)
    injection Hs as <-.
    apply (lock_inv_move s i UnlockEntered UnlockCleared _ _ e); side Hev.
    + intros o Ho'. injection Ho' as <-. reflexivity.
  - (* UnlockCleared: the event is signaled *)
    injection Hs as <-. cbn [PalEventSet test_double].
    apply (lock_inv_move s i UnlockCleared Outside _ _ (mk_event true (auto_clear e)));
      side Hev.
    + unfold td_set. cbn [events]. rewrite lookup_alter_eq, He. reflexivity.
    + intros _. exact (Ho 0 Hp eq_refl).
Qed.

Lemma exec_inv (sched : list nat) :
  forall s, lock_inv s -> lock_inv (exec sched s).
Proof.
  induction sched as [|i sched IH]; intros s Hs; [exact Hs|].
  cbn [exec]. apply IH. destruct (step i s) as [s'|] eqn:Hst; [|exact Hs].
  exact (step_inv i s s' Hs Hst).
Qed.

Lemma start_inv (w0 w : @world test_double) (n : nat) :
  _create_lock w0 = Done true w -> lock_inv (start n w).
Proof.
  intros Hc. destruct (td_create_lock_true w0 w Hc) as [rest ->].
  assert (Hev : lock_event (start n
            (@mk_world test_double (mk_lock (Z.pos (next_handle (pal w0))) 0)
               (cur_tid w0)
               (mk_td (<[Z.pos (next_handle (pal w0)) := mk_event true true]>
                         (events (pal w0)))
                      (Pos.succ (next_handle (pal w0))) rest (wait_script (pal w0)))
               (calls w0 ++ [mk_call (CallEventCreate true true)
                                     (mk_lock (lock (mem w0)) 0)])
               (__create_lock_result w0))) = Some (mk_event true true))
    by apply lookup_insert_eq.
  constructor.
  - reflexivity.
  - exists (mk_event true true). split; [exact Hev|reflexivity].
  - unfold event_signals. rewrite Hev. cbn [start pcs signaled].
    rewrite signals_held_replicate. reflexivity.
  - reflexivity.
  - intros i p o Hi. cbn [start pcs] in Hi.
    apply lookup_replicate in Hi as [-> _]. discriminate.
Qed.

(** C1 (mutual exclusion).  Take a lock that [_create_lock] has created on
    the platform double, any number of threads that each run [_lock], a
    critical section and [_unlock] again and again, and any interleaving of
    their steps.  Then no two threads are in their critical sections at the
    same time, so the counter they bump there never exceeds 1.  The reason is
    the invariant: the event is auto-clearing, and there is one signal in
    all, either in the event or taken by the one thread whose wait reset
    it. *)
Theorem mutual_exclusion :
  forall (w0 w : @world test_double) (n : nat) (sched : list nat),
    _create_lock w0 = Done true w ->
    (forall i j,
        in_critical_section (exec sched (start n w)) i = true ->
        in_critical_section (exec sched (start n w)) j = true ->
        i = j) /\
    (critical_count (exec sched (start n w)) <= 1)%nat /\
    lock_inv (exec sched (start n w)).
Proof.
  intros w0 w n sched Hc.
  pose proof (exec_inv sched _ (start_inv w0 w n Hc)) as Hinv.
  pose proof (inv_one_signal _ Hinv) as H1.
  split; [|split; [|exact Hinv]].
  - intros i j Hi Hj. unfold in_critical_section in *.
    destruct (pcs (exec sched (start n w)) !! i) as [p|] eqn:Ei; [|discriminate].
    destruct (pcs (exec sched (start n w)) !! j) as [q|] eqn:Ej; [|discriminate].
    destruct (decide (i = j)) as [|Hne]; [assumption|exfalso].
    pose proof (signals_held_two _ i j p q Hne Ei Ej) as H2.
    destruct p; try discriminate. destruct q; try discriminate.
    cbn [tok has_signal] in H2. lia.
  - unfold critical_count.
    pose proof (critical_le_signals (pcs (exec sched (start n w)))). lia.
Qed.

(** Auto-clear is what excludes: on an event that stays signaled after a
    wait, two threads that run [_lock] one after the other are both in. *)
Example manual_event_no_exclusion :
  in_critical_section (exec both_lock manual_event_state) 0 = true /\
  in_critical_section (exec both_lock manual_event_state) 1 = true.
Proof. vm_compute. split; reflexivity. Qed.

(* ===================================================================== *)
(** ** The statements at work *)
(* ===================================================================== *)

(** Three threads on a freshly created lock, under the schedule
    [contended]. *)
Lemma mutual_exclusion_witness :
  _create_lock fresh_world = Done true created_world /\
  (forall i j,
      in_critical_section (exec contended (start 3 created_world)) i = true ->
      in_critical_section (exec contended (start 3 created_world)) j = true ->
      i = j) /\
  (critical_count (exec contended (start 3 created_world)) <= 1)%nat /\
  lock_inv (exec contended (start 3 created_world)).
Proof.
  split; [reflexivity|].
  apply (mutual_exclusion fresh_world created_world 3 contended).
  reflexivity.
Defined.

(** Three failed waits, then a success: four waits in all. *)
Lemma lock_retry_correct_witness :
  non_null (lock (mem flaky_world)) = true /\
  wait_errors_then_success 3 (lock (mem flaky_world)) (pal flaky_world) =
    Some served_platform /\
  (3 < 4)%nat /\
  exists w',
    _lock 4 flaky_world = Done tt w' /\
    owner (mem w') = cur_tid flaky_world /\
    lock (mem w') = lock (mem flaky_world) /\
    pal w' = served_platform /\
    calls w' = calls flaky_world ++ replicate 4 (wait_record flaky_world) /\
    wait_count (calls w') = (wait_count (calls flaky_world) + (3 + 1))%nat.
Proof.
  split; [reflexivity|]. split; [vm_compute; reflexivity|]. split; [lia|].
  apply (proj1 (lock_retry_correct test_double flaky_world) 3%nat 4%nat
           served_platform).
  - reflexivity.
  - vm_compute. reflexivity.
  - lia.
Defined.

(** The three operations on a lock without a handle. *)
Lemma destroy_lock_skips_handle_check_witness :
  is_null (lock (mem stale_world)) = true /\
  (forall fuel, _lock fuel stale_world = AssertFailed stale_world) /\
  _unlock stale_world = AssertFailed stale_world /\
  head (new_calls stale_world (final (_destroy_lock stale_world))) =
    Some (mk_call (CallObjectDestroy NULL) (mem stale_world)).
Proof.
  split; [reflexivity|].
  apply (destroy_lock_skips_handle_check test_double stale_world). reflexivity.
Defined.

(** [unlock(p++)] on two locks next to each other, the first one held. *)
Lemma tracing_evaluates_argument_twice_witness :
  c_vars two_locks !! "p" = Some 0 /\
  c_heap two_locks !! 0 = Some (mk_lock 1 42) /\
  c_heap two_locks !! (0 + 1) = Some (mk_lock 2 0) /\
  non_null (lock (mk_lock 1 42)) = true /\
  non_null (lock (mk_lock 2 0)) = true /\
  owner (mk_lock 1 42) <> 0 /\
  exists c1 c2,
    Traced.unlock false 0 (post_increment "p") two_locks = Returned tt c1 /\
    Traced.unlock true 0 (post_increment "p") two_locks = Returned tt c2 /\
    c_heap c1 !! 0 = Some (mk_lock (lock (mk_lock 1 42)) 0) /\
    c_pal c1 = PalEventSet test_double (lock (mk_lock 1 42)) (c_pal two_locks) /\
    c_vars c1 !! "p" = Some (0 + 1) /\
    c_heap c2 !! 0 = Some (mk_lock 1 42) /\
    c_heap c2 !! (0 + 1) = Some (mk_lock (lock (mk_lock 2 0)) 0) /\
    c_pal c2 = PalEventSet test_double (lock (mk_lock 2 0)) (c_pal two_locks) /\
    c_vars c2 !! "p" = Some (0 + 2) /\
    ~ same_result (Traced.unlock true 0 (post_increment "p") two_locks)
                  (Traced.unlock false 0 (post_increment "p") two_locks).
Proof.
  assert (Ho : owner (mk_lock 1 42) <> 0) by (cbn; lia).
  do 5 (split; [reflexivity|]). split; [exact Ho|].
  apply (proj2 (proj2 (tracing_evaluates_argument_twice test_double 0 1 two_locks))
           "p" 0 (mk_lock 1 42) (mk_lock 2 0)); try reflexivity.
  exact Ho.
Defined.

(** Thread 42 releases the lock it holds. *)
Lemma unlock_clears_owner_before_signal_witness :
  non_null (lock (mem held_world)) = true /\
  exists w',
    _unlock held_world = Done tt w' /\
    calls w' = calls held_world ++
               [mk_call (CallEventSet (lock (mem held_world)))
                        (mk_lock (lock (mem held_world)) 0)] /\
    (forall c, In c (drop (length (calls held_world)) (calls w')) ->
               what c = CallEventSet (lock (mem held_world)) /\
               owner (seen c) = 0) /\
    mem w' = mk_lock (lock (mem held_world)) 0 /\
    pal w' = PalEventSet test_double (lock (mem held_world)) (pal held_world).
Proof.
  split; [reflexivity|].
  apply (unlock_clears_owner_before_signal test_double held_world).
  reflexivity.
Defined.

(** The first [_lock] on a freshly created lock. *)
Lemma create_lock_behaviour_witness :
  _create_lock fresh_world = Done true created_world /\
  wait_script (pal fresh_world) = [] /\
  exists w',
    _lock 1 created_world = Done tt w' /\
    calls w' = calls created_world ++ [wait_record created_world] /\
    owner (mem w') = cur_tid fresh_world /\
    events (pal w') !! lock (mem w') = Some (mk_event false true).
Proof.
  split; [reflexivity|]. split; [reflexivity|].
  apply (proj2 create_lock_behaviour fresh_world created_world 0%nat);
    reflexivity.
Defined.

(** [locked] after thread 42 has acquired, and after it has released. *)
Lemma locked_reports_ownership_witness :
  _lock 4 flaky_world = Done tt (final (_lock 4 flaky_world)) /\
  cur_tid flaky_world <> 0 /\
  _unlock (final (_lock 4 flaky_world)) =
    Done tt (final (_unlock (final (_lock 4 flaky_world)))) /\
  locked (final (_lock 4 flaky_world)) =
    Done true (final (_lock 4 flaky_world)) /\
  locked (final (_unlock (final (_lock 4 flaky_world)))) =
    Done false (final (_unlock (final (_lock 4 flaky_world)))).
Proof.
  assert (Hl : _lock 4 flaky_world = Done tt (final (_lock 4 flaky_world)))
    by (vm_compute; reflexivity).
  assert (Hu : _unlock (final (_lock 4 flaky_world)) =
               Done tt (final (_unlock (final (_lock 4 flaky_world)))))
    by (vm_compute; reflexivity).
  assert (Ht : cur_tid flaky_world <> 0) by (cbn; lia).
  destruct (proj2 (proj2 (proj2
              (locked_reports_ownership test_double flaky_world)))
              4%nat _ Hl) as (H1 & _ & H2).
  split; [exact Hl|]. split; [exact Ht|]. split; [exact Hu|].
  split; [exact H1|]. exact (H2 _ Ht Hu).
Defined.

(** [lock_created] before and after [_create_lock] on the double. *)
Lemma lock_created_reports_handle_witness :
  create_gives_handle test_double /\
  lock_created fresh_world = Done false fresh_world /\
  lock_created created_world = Done true created_world.
Proof.
  split; [exact td_create_gives_handle|].
  destruct (lock_created_reports_handle test_double fresh_world
              td_create_gives_handle) as (H1 & _ & H2 & _).
  split; [exact H1|]. apply H2. reflexivity.
Defined.

(* ===================================================================== *)
(** ** More on acquire *)
(* ===================================================================== *)

Section AcquireFootprint.

Context {P : Pal}.

Local Abbreviation world := (@world P).

(** Whatever way the loop ends, it has only waited on the lock's handle. *)
Lemma wait_loop_footprint (fuel : nat) :
  forall w : world,
    exists k, (k <= fuel)%nat /\
      mem (final (wait_loop fuel w)) = mem w /\
      cur_tid (final (wait_loop fuel w)) = cur_tid w /\
      calls (final (wait_loop fuel w)) = calls w ++ replicate k (wait_record w).
Proof.
  induction fuel as [|fuel IH]; intros w.
  - exists O. cbn. rewrite app_nil_r. auto.
  - cbn [wait_loop]. unfold bind, load_lock, pal_event_wait, record.
    destruct (PalEventWait P (lock (mem w)) None (pal w)) as [[r p1]|].
    + destruct (r <? 0).
      * destruct (IH (mk_world (mem w) (cur_tid w) p1
                        (calls w ++ [mk_call (CallEventWait (lock (mem w)) None) (mem w)])
                        (__create_lock_result w))) as (k & Hk & Hm & Ht & Hc).
        cbn [mem cur_tid calls] in *. exists (S k). split; [lia|].
        rewrite Hm, Ht, Hc. unfold wait_record. cbn [mem replicate].
        rewrite <- app_assoc. auto.
      * exists 1%nat. split; [lia|]. cbn. auto.
    + exists 1%nat. split; [lia|]. cbn. auto.
Qed.

(** The loop after [n] failed waits, with a bound of [n]. *)
Lemma wait_loop_errors (n : nat) :
  forall (w : world) (p' : pal_state P),
    wait_errors n (lock (mem w)) (pal w) = Some p' ->
    wait_loop n w =
    OutOfFuel (mk_world (mem w) (cur_tid w) p'
                 (calls w ++ replicate n (wait_record w))
                 (__create_lock_result w)).
Proof.
  induction n as [|n IH]; intros w p' H; cbn [wait_errors wait_loop] in *.
  - injection H as <-. cbn. rewrite app_nil_r. destruct w; reflexivity.
  - unfold bind, load_lock, pal_event_wait, record.
    destruct (PalEventWait P (lock (mem w)) None (pal w)) as [[r p1]|];
      [|discriminate].
    destruct (r <? 0); [|discriminate].
    rewrite (IH _ p') by exact H. cbn [mem cur_tid calls __create_lock_result].
    unfold wait_record. cbn [mem replicate]. rewrite <- app_assoc. reflexivity.
Qed.

(** [_lock] in terms of its loop. *)
Lemma lock_shape (fuel : nat) (w : world) :
  _lock fuel w =
  if non_null (lock (mem w)) then
    match wait_loop fuel w with
    | Done _ w1 =>
        Done tt (mk_world (mk_lock (lock (mem w1)) (cur_tid w1)) (cur_tid w1)
                   (pal w1) (calls w1) (__create_lock_result w1))
    | AssertFailed w1 => AssertFailed w1
    | Blocked w1 => Blocked w1
    | OutOfFuel w1 => OutOfFuel w1
    end
  else AssertFailed w.
Proof.
  unfold _lock, bind, load_lock, assert.
  destruct (non_null (lock (mem w))); [|reflexivity].
  destruct (wait_loop fuel w); reflexivity.
Qed.

End AcquireFootprint.

(** X1 (what [_lock] touches).  However a call of [_lock] ends, it has issued
    nothing but waits on the lock's own handle with no timeout, at most as
    many as the bound, and the handle field is what it was.  The owner field
    is written only when the call returns; when the assertion fails, when the
    wait never returns or while the loop still spins, the lock object is
    untouched. *)
Theorem lock_footprint :
  forall (P : Pal) (fuel : nat) (w : @world P),
    lock (mem (final (_lock fuel w))) = lock (mem w) /\
    cur_tid (final (_lock fuel w)) = cur_tid w /\
    (exists k, (k <= fuel)%nat /\
       calls (final (_lock fuel w)) = calls w ++ replicate k (wait_record w)) /\
    match _lock fuel w with
    | Done _ w' => mem w' = mk_lock (lock (mem w)) (cur_tid w)
    | AssertFailed w' | Blocked w' | OutOfFuel w' => mem w' = mem w
    end.
Proof.
  intros P fuel w.
  destruct (wait_loop_footprint fuel w) as (k & Hk & Hm & Ht & Hc).
  rewrite lock_shape.
  destruct (non_null (lock (mem w))).
  - destruct (wait_loop fuel w) as [[] w1|w1|w1|w1];
      cbn [final mem cur_tid calls lock] in *;
      rewrite ?Hm, ?Ht; (split; [reflexivity|]); (split; [reflexivity|]);
      (split; [exists k; split; [exact Hk|exact Hc]|reflexivity]).
  - cbn [final]. split; [reflexivity|]. split; [reflexivity|].
    split; [|reflexivity]. exists O. split; [lia|]. cbn. rewrite app_nil_r.
    reflexivity.
Qed.

(** X2 (the loop never gives up).  On a lock with a valid handle, if the
    platform answers the first [n] waits with an error, then after those [n]
    waits [_lock] is still in its loop: it has neither returned nor failed,
    it has issued exactly those [n] waits and the lock object is untouched.
    This holds for every [n]. *)
Theorem lock_keeps_retrying :
  forall (P : Pal) (n : nat) (w : @world P) (p' : pal_state P),
    non_null (lock (mem w)) = true ->
    wait_errors n (lock (mem w)) (pal w) = Some p' ->
    _lock n w =
    OutOfFuel (mk_world (mem w) (cur_tid w) p'
                 (calls w ++ replicate n (wait_record w))
                 (__create_lock_result w)).
Proof.
  intros P n w p' Hv Hw.
  rewrite lock_shape, Hv, (wait_loop_errors n w p' Hw). reflexivity.
Qed.

Lemma lock_keeps_retrying_witness :
  non_null (lock (mem failing_world)) = true /\
  wait_errors 5 (lock (mem failing_world)) (pal failing_world) =
    Some drained_platform /\
  _lock 5 failing_world =
  OutOfFuel (@mk_world test_double (mem failing_world) (cur_tid failing_world)
               drained_platform
               (calls failing_world ++ replicate 5 (wait_record failing_world))
               (__create_lock_result failing_world)).
Proof.
  split; [reflexivity|]. split; [reflexivity|].
  apply (lock_keeps_retrying test_double 5 failing_world); reflexivity.
Defined.


(* ===================================================================== *)
(** ** A whole life of a lock, and a lock that is held *)
(* ===================================================================== *)

(** [create], [lock], [unlock], [destroy] in a row, in closed form, on a
    platform that creates the event and grants the first wait. *)
Lemma life_cycle_run {P : Pal} (fuel : nat) (w : @world P)
    (h : PAL_HANDLE) (p1 p2 : pal_state P) (r : Z) :
  PalEventCreate P (lock (mem w)) true true (pal w) = (0, h, p1) ->
  non_null h = true ->
  PalEventWait P h None p1 = Some (r, p2) ->
  (r <? 0) = false ->
  life_cycle (S fuel) w =
  Done tt (mk_world empty_lock (cur_tid w)
             (PalObjectDestroy P h (PalEventSet P h p2))
             (calls w ++
              [mk_call (CallEventCreate true true) (mk_lock (lock (mem w)) 0);
               mk_call (CallEventWait h None) (mk_lock h 0);
               mk_call (CallEventSet h) (mk_lock h 0);
               mk_call (CallObjectDestroy h) (mk_lock h 0)])
             (__create_lock_result w)).
Proof.
  intros Hc Hv Hw Hr. unfold life_cycle, bind at 1.
  rewrite create_lock_run, Hc. unfold bind at 1.
  rewrite (lock_run 0 (S fuel) _ p2); cbn [mem pal lock]; [|exact Hv| |lia].
  - unfold bind. rewrite unlock_run by exact Hv.
    rewrite destroy_lock_run.
    cbn [mem pal calls cur_tid lock __create_lock_result wait_record replicate].
    rewrite <- !app_assoc. reflexivity.
  - cbn [wait_errors_then_success]. rewrite Hw, Hr. reflexivity.
Qed.

(** X4 (a whole life).  On any platform that creates the event (return code
    0, a handle that is not null) and grants the first wait, [_create_lock],
    [_lock], [_unlock] and [_destroy_lock] in a row return having issued
    exactly four calls: the creation, then a wait, a signal and a destroy
    that all name the handle the creation stored.  The owner field read 0 at
    the instant of each of the four, and the lock object ends empty. *)
Theorem life_cycle_calls :
  forall (P : Pal) (fuel : nat) (w : @world P)
         (h : PAL_HANDLE) (p1 p2 : pal_state P) (r : Z),
    PalEventCreate P (lock (mem w)) true true (pal w) = (0, h, p1) ->
    non_null h = true ->
    PalEventWait P h None p1 = Some (r, p2) ->
    (r <? 0) = false ->
    exists w',
      life_cycle (S fuel) w = Done tt w' /\
      map what (new_calls w w') =
        [CallEventCreate true true; CallEventWait h None;
         CallEventSet h; CallObjectDestroy h] /\
      (forall c, In c (new_calls w w') -> owner (seen c) = 0) /\
      mem w' = empty_lock /\
      pal w' = PalObjectDestroy P h (PalEventSet P h p2).
Proof.
  intros P fuel w h p1 p2 r Hc Hv Hw Hr. eexists.
  split; [exact (life_cycle_run fuel w h p1 p2 r Hc Hv Hw Hr)|].
  unfold new_calls. cbn [calls mem pal]. rewrite drop_app_length.
  split; [reflexivity|]. split; [|split; reflexivity].
  intros c [<-|[<-|[<-|[<-|[]]]]]; reflexivity.
Qed.

Lemma life_cycle_calls_witness :
  PalEventCreate test_double (lock (mem fresh_world)) true true (pal fresh_world) =
    (0, 1, pal created_world) /\
  non_null 1 = true /\
  PalEventWait test_double 1 None (pal created_world) = Some (0, served_platform) /\
  (0 <? 0) = false /\
  exists w',
    life_cycle 1 fresh_world = Done tt w' /\
    map what (new_calls fresh_world w') =
      [CallEventCreate true true; CallEventWait 1 None;
       CallEventSet 1; CallObjectDestroy 1] /\
    (forall c, In c (new_calls fresh_world w') -> owner (seen c) = 0) /\
    mem w' = empty_lock /\
    pal w' = PalObjectDestroy test_double 1
               (PalEventSet test_double 1 served_platform).
Proof.
  split; [reflexivity|]. split; [reflexivity|]. split; [reflexivity|].
  split; [reflexivity|].
  apply (life_cycle_calls test_double 0 fresh_world 1 (pal created_world)
           served_platform 0); reflexivity.
Defined.

(** What the double answers to the creation when no fault is pending. *)
Lemma td_create_ok (old : PAL_HANDLE) (s : td_state) :
  hd 0 (create_script s) = 0 ->
  td_create old true true s =
  (0, Z.pos (next_handle s),
   mk_td (<[Z.pos (next_handle s) := mk_event true true]> (events s))
         (Pos.succ (next_handle s)) (tl (create_script s)) (wait_script s)).
Proof.
  unfold td_create. destruct (create_script s) as [|r rest]; [reflexivity|].
  cbn [hd tl]. intros ->. reflexivity.
Qed.

(** X5 (no event left behind).  On the test double with no fault pending,
    the same four operations in a row return and leave the platform without
    the event they made: the live events are those there were before, apart
    from whatever the new handle named, and exactly those there were when the
    handle was unused. *)
Theorem life_cycle_leaves_no_event :
  forall (fuel : nat) (w : @world test_double),
    hd 0 (create_script (pal w)) = 0 ->
    wait_script (pal w) = [] ->
    exists w',
      life_cycle (S fuel) w = Done tt w' /\
      mem w' = empty_lock /\
      events (pal w') = delete (Z.pos (next_handle (pal w))) (events (pal w)) /\
      (events (pal w) !! Z.pos (next_handle (pal w)) = None ->
       events (pal w') = events (pal w)).
Proof.
  intros fuel w Hc Hs. eexists. split.
  - eapply (life_cycle_run fuel w (Z.pos (next_handle (pal w)))).
    + cbn [PalEventCreate test_double]. apply td_create_ok, Hc.
    + reflexivity.
    + cbn [PalEventWait test_double]. unfold td_wait. cbn [wait_script].
      rewrite Hs. unfold td_serve_wait. cbn [events].
      rewrite lookup_insert_eq. cbn [signaled auto_clear]. reflexivity.
    + reflexivity.
  - cbn [mem pal PalObjectDestroy PalEventSet test_double].
    unfold td_destroy, td_set. cbn [events].
    rewrite insert_insert_eq, alter_insert_eq, delete_insert_eq.
    split; [reflexivity|]. split; [reflexivity|].
    intros Hf. apply delete_id, Hf.
Qed.

Lemma life_cycle_leaves_no_event_witness :
  hd 0 (create_script (pal fresh_world)) = 0 /\
  wait_script (pal fresh_world) = [] /\
  exists w',
    life_cycle 1 fresh_world = Done tt w' /\
    mem w' = empty_lock /\
    events (pal w') =
      delete (Z.pos (next_handle (pal fresh_world))) (events (pal fresh_world)) /\
    (events (pal fresh_world) !! Z.pos (next_handle (pal fresh_world)) = None ->
     events (pal w') = events (pal fresh_world)).
Proof.
  split; [reflexivity|]. split; [reflexivity|].
  apply (life_cycle_leaves_no_event 0 fresh_world); reflexivity.
Defined.

(** X6 (a held lock).  On the test double with no fault pending, take a lock
    whose event is not signaled, as it is while some thread holds the lock.
    Then [_lock] called by any thread, the holder included, issues one wait
    and never returns, leaving the lock object as it is; and once [_unlock]
    has run, [_lock] called by any thread returns after one wait with that
    thread as owner and the event reset again. *)
Theorem held_lock_blocks_until_release :
  forall (w : @world test_double) (e : td_event),
    non_null (lock (mem w)) = true ->
    events (pal w) !! lock (mem w) = Some e ->
    signaled e = false ->
    auto_clear e = true ->
    wait_script (pal w) = [] ->
    (forall (u : IDTYPE) (fuel : nat),
        _lock (S fuel) (as_thread u w) =
        Blocked (@mk_world test_double (mem w) u (pal w)
                   (calls w ++ [wait_record w]) (__create_lock_result w))) /\
    (forall (u : IDTYPE) (fuel : nat),
        exists w2 w3,
          _unlock w = Done tt w2 /\
          _lock (S fuel) (as_thread u w2) = Done tt w3 /\
          owner (mem w3) = u /\
          lock (mem w3) = lock (mem w) /\
          events (pal w3) !! lock (mem w) = Some (mk_event false true) /\
          wait_count (new_calls w2 w3) = 1%nat).
Proof.
  intros w e Hv He Hsg Hac Hs. split.
  - intros u fuel. rewrite lock_shape. cbn [as_thread mem]. rewrite Hv.
    cbn [wait_loop]. unfold bind, load_lock, pal_event_wait, record.
    cbn [as_thread mem pal cur_tid calls __create_lock_result
         PalEventWait test_double].
    unfold td_wait. rewrite Hs. unfold td_serve_wait. rewrite He, Hsg.
    reflexivity.
  - intros u fuel. eexists. eexists. split; [exact (unlock_run w Hv)|].
    split.
    + apply (lock_run 0 (S fuel)); cbn [as_thread mem pal lock]; [exact Hv| |lia].
      cbn [wait_errors_then_success PalEventWait PalEventSet test_double].
      unfold td_wait, td_set. cbn [wait_script]. rewrite Hs.
      unfold td_serve_wait. cbn [events].
      rewrite lookup_alter_eq, He. cbn [fmap option_fmap option_map signaled auto_clear].
      rewrite Hac. reflexivity.
    + cbn [mem pal owner lock events as_thread cur_tid calls].
      split; [reflexivity|]. split; [reflexivity|].
      split; [apply lookup_insert_eq|].
      unfold new_calls. cbn [calls as_thread].
      rewrite drop_app_length. reflexivity.
Qed.

Lemma held_lock_blocks_until_release_witness :
  non_null (lock (mem held_world)) = true /\
  events (pal held_world) !! lock (mem held_world) = Some (mk_event false true) /\
  signaled (mk_event false true) = false /\
  auto_clear (mk_event false true) = true /\
  wait_script (pal held_world) = [] /\
  _lock 3 (as_thread 42 held_world) =
  Blocked (@mk_world test_double (mem held_world) 42 (pal held_world)
             (calls held_world ++ [wait_record held_world])
             (__create_lock_result held_world)) /\
  exists w2 w3,
    _unlock held_world = Done tt w2 /\
    _lock 3 (as_thread 7 w2) = Done tt w3 /\
    owner (mem w3) = 7 /\
    lock (mem w3) = lock (mem held_world) /\
    events (pal w3) !! lock (mem held_world) = Some (mk_event false true) /\
    wait_count (new_calls w2 w3) = 1%nat.
Proof.
  destruct (held_lock_blocks_until_release held_world (mk_event false true))
    as [Hb Hr]; try reflexivity.
  do 5 (split; [reflexivity|]).
  split; [exact (Hb 42 2%nat)|exact (Hr 7 2%nat)].
Defined.

(* ===================================================================== *)
(** ** More on the tracing macros *)
(* ===================================================================== *)

(** A macro that logs first, in closed form. *)
Lemma pre_trace_run {P : Pal} {A} (u : nat) (name : string) (func : @M P A)
    (l : macro_arg) (c : @caller P) (la : libos_lock) :
  c_heap c !! first_value l (c_vars c) = Some la ->
  Traced.LOCK_PRE_TRACE u name func (replaced l) c =
  call_on u (second_value l (c_vars c)) func (with_record u name l la c).
Proof.
  intros Ha. unfold Traced.LOCK_PRE_TRACE, cbind.
  rewrite (trace_handle_run u name (replaced l) c la Ha), apply_to_run.
  reflexivity.
Qed.

(** X7 (what a trace record prints).  With [LOCK_TRACING] a macro evaluates
    its argument twice.  [clear_lock], [destroy_lock] and [unlock] first
    leave a record that prints the handle of the lock the first value of the
    argument points to, with the macro-replaced text of the argument, and
    then run their operation on the lock the second value points to.
    [create_lock] and [lock] run their operation on the lock the first value
    points to and then leave a record that prints the handle of the lock the
    second value points to, [create_lock] with the text of the argument as
    written; when [_lock] does not return, [lock] ends as it does and leaves
    no record. *)
Theorem trace_record_placement :
  forall (P : Pal) (u : nat) (fuel : nat) (l : macro_arg) (c : @caller P)
         (la : libos_lock),
    c_heap c !! first_value l (c_vars c) = Some la ->
    Traced.clear_lock true u l c =
      call_on u (second_value l (c_vars c)) _clear_lock
        (with_record u "_clear_lock" l la c) /\
    Traced.destroy_lock true u l c =
      call_on u (second_value l (c_vars c)) _destroy_lock
        (with_record u "_destroy_lock" l la c) /\
    Traced.unlock true u l c =
      call_on u (second_value l (c_vars c)) _unlock
        (with_record u "_unlock" l la c) /\
    (forall (r : Z) (h : PAL_HANDLE) (p : pal_state P) (lb : libos_lock),
        PalEventCreate P (lock la) true true (c_pal c) = (r, h, p) ->
        <[first_value l (c_vars c) := mk_lock h 0]> (c_heap c)
          !! second_value l (c_vars c) = Some lb ->
        Traced.create_lock true u l c =
        Returned (r =? 0)
          (mk_caller (<[first_value l (c_vars c) := mk_lock h 0]> (c_heap c))
             (twice l (c_vars c)) (c_tid c) p
             (c_calls c ++
              [mk_call (CallEventCreate true true) (mk_lock (lock la) 0);
               mk_call (CallLogTrace (Traced.trace_fmt "_create_lock" (spelling l))
                                     (lock lb)) lb])
             (<[u := r =? 0]> (c_results c)))) /\
    (forall (w1 : @world P) (lb : libos_lock),
        _lock fuel (mk_world la (c_tid c) (c_pal c) (c_calls c) (result_cell u c)) =
          Done tt w1 ->
        <[first_value l (c_vars c) := mem w1]> (c_heap c)
          !! second_value l (c_vars c) = Some lb ->
        Traced.lock true u fuel l c =
        Returned tt
          (mk_caller (<[first_value l (c_vars c) := mem w1]> (c_heap c))
             (twice l (c_vars c)) (cur_tid w1) (pal w1)
             (calls w1 ++
              [mk_call (CallLogTrace (Traced.trace_fmt "_lock" (expanded l))
                                     (lock lb)) lb])
             (<[u := __create_lock_result w1]> (c_results c)))) /\
    (forall (e : ending) (c1 : @caller P),
        Traced.lock false u fuel l c = Ended e c1 ->
        Traced.lock true u fuel l c = Ended e c1).
Proof.
  intros P u fuel l c la Ha.
  split; [exact (pre_trace_run u _ _ l c la Ha)|].
  split; [exact (pre_trace_run u _ _ l c la Ha)|].
  split; [exact (pre_trace_run u _ _ l c la Ha)|].
  split; [|split].
  - intros r h p lb Hc Hb.
    unfold Traced.create_lock, Traced.create_lock_assign,
      Traced.create_lock_trace, Traced.create_lock_yield, cbind.
    rewrite apply_to_run. unfold call_on, enter, set_vars.
    cbn [c_heap c_tid c_pal c_calls c_vars]. rewrite Ha.
    unfold bind at 1. rewrite create_lock_run. cbn [mem pal]. rewrite Hc.
    unfold store_create_lock_result.
    erewrite trace_handle_run by (unfold leave; cbn [c_heap c_vars mem]; exact Hb).
    unfold read_result, result_cell, leave.
    cbn [c_results mem cur_tid pal calls __create_lock_result c_heap c_vars
         c_tid c_pal c_calls].
    rewrite !lookup_insert_eq, insert_insert_eq, <- app_assoc. reflexivity.
  - intros w1 lb Hl Hb.
    unfold Traced.lock, Traced.LOCK_POST_TRACE, cbind.
    rewrite apply_to_run. unfold call_on, enter, set_vars.
    cbn [c_heap c_tid c_pal c_calls c_vars].
    change (first_value (replaced l)) with (first_value l).
    change (once (replaced l)) with (once l).
    unfold result_cell in *. cbn [c_results]. rewrite Ha, Hl.
    erewrite trace_handle_run by (unfold leave; cbn [c_heap c_vars]; exact Hb).
    unfold result_cell, leave.
    cbn [c_results mem cur_tid pal calls __create_lock_result c_heap c_vars
         c_tid c_pal c_calls spelling replaced].
    rewrite lookup_insert_eq, insert_insert_eq. reflexivity.
  - intros e c1. unfold Traced.lock, Traced.LOCK_POST_TRACE, cbind.
    rewrite !apply_to_run.
    change (first_value (replaced l)) with (first_value l).
    change (once (replaced l)) with (once l).
    intros ->. reflexivity.
Qed.

(** The traced [unlock(p++)] on two locks next to each other. *)
Lemma trace_record_placement_witness :
  c_heap two_locks !! first_value (post_increment "p") (c_vars two_locks) =
    Some (mk_lock 1 42) /\
  Traced.unlock true 0 (post_increment "p") two_locks =
    call_on 0 (second_value (post_increment "p") (c_vars two_locks)) _unlock
      (with_record 0 "_unlock" (post_increment "p") (mk_lock 1 42) two_locks).
Proof.
  split; [reflexivity|].
  apply (trace_record_placement test_double 0 1 (post_increment "p") two_locks
           (mk_lock 1 42)).
  reflexivity.
Defined.

(* ===================================================================== *)
(** ** The variable that carries the result of [create_lock] *)
(* ===================================================================== *)

Section ResultCells.

Context {P : Pal}.

(** Code of one translation unit leaves the variable of every other one
    alone. *)
Lemma call_on_cells {A} (u u' : nat) (a : Z) (m : @M P A) (c : @caller P) :
  u' <> u ->
  result_cell u' (after (call_on u a m c)) = result_cell u' c.
Proof.
  intros Hu. unfold call_on. destruct (enter u a c) as [w|]; [|reflexivity].
  destruct (m w); cbn [after]; unfold result_cell, leave; cbn [c_results];
    rewrite lookup_insert_ne by auto; reflexivity.
Qed.

Lemma apply_to_cells {A} (u u' : nat) (m : @M P A) (l : macro_arg) (c : @caller P) :
  u' <> u ->
  result_cell u' (after (Traced.apply_to u m l c)) = result_cell u' c.
Proof.
  intros Hu. rewrite apply_to_run, call_on_cells by exact Hu. reflexivity.
Qed.

(** A trace record changes no lock object and no such variable. *)
Lemma trace_handle_returned (u : nat) (name : string) (l : macro_arg)
    (c c' : @caller P) :
  Traced.trace_handle u name l c = Returned tt c' ->
  c_heap c' = c_heap c /\ forall u', result_cell u' c' = result_cell u' c.
Proof.
  destruct (c_heap c !! first_value l (c_vars c)) as [la|] eqn:Ha.
  - rewrite (trace_handle_run u name l c la Ha). intros H. injection H as <-.
    split; [reflexivity|]. intros u'. unfold result_cell. cbn [c_results].
    destruct (decide (u' = u)) as [->|Hne].
    + rewrite lookup_insert_eq. reflexivity.
    + rewrite lookup_insert_ne by auto. reflexivity.
  - rewrite (trace_handle_wild u name l c Ha). discriminate.
Qed.

(** After its first operand the traced [create_lock] has the result of the
    creation in the variable of its translation unit. *)
Lemma create_lock_assign_cell (u : nat) (l : macro_arg) (c c0 c1 : @caller P)
    (rA : bool) :
  Traced.create_lock false u l c = Returned rA c0 ->
  Traced.create_lock_assign u l c = Returned tt c1 ->
  result_cell u c1 = rA /\ c_vars c1 = once l (c_vars c).
Proof.
  unfold Traced.create_lock, Traced.create_lock_assign.
  rewrite !apply_to_run. unfold call_on.
  destruct (enter u _ _) as [w|]; [|discriminate].
  unfold bind. rewrite create_lock_run.
  destruct (PalEventCreate P (lock (mem w)) true true (pal w)) as [[r h] p].
  unfold store_create_lock_result. intros H0 H1.
  injection H0 as <- _. injection H1 as <-.
  unfold result_cell, leave. cbn [c_results c_vars __create_lock_result set_vars].
  rewrite lookup_insert_eq. auto.
Qed.

(** The traced [create_lock] returns what its variable holds, and leaves the
    variables of the other translation units alone. *)
Lemma traced_create_cells (u : nat) (l : macro_arg) (c c' : @caller P) (r : bool) :
  Traced.create_lock true u l c = Returned r c' ->
  result_cell u c' = r /\
  forall u', u' <> u -> result_cell u' c' = result_cell u' c.
Proof.
  unfold Traced.create_lock, cbind.
  destruct (Traced.create_lock_assign u l c) as [[] c1|] eqn:E1; [|discriminate].
  destruct (Traced.create_lock_trace u l c1) as [[] c2|] eqn:E2; [|discriminate].
  unfold Traced.create_lock_yield, read_result. intros H. injection H as <- <-.
  split; [reflexivity|]. intros u' Hu.
  apply trace_handle_returned in E2 as [_ E2]. rewrite E2.
  unfold Traced.create_lock_assign in E1.
  pose proof (apply_to_cells u u'
                (let* r := _create_lock in store_create_lock_result r) l c Hu) as H.
  rewrite E1 in H. exact H.
Qed.

End ResultCells.

(** X8 (two overlapping [create_lock]).  The traced [create_lock] keeps the
    result of its creation in the variable [__create_lock_result] of the
    translation unit it is used in, which all threads running code of that
    unit share.  Let a thread A have assigned it, and let a thread B run a
    traced [create_lock] of its own, on any lock object, to the end before A
    goes on, either before A's trace record or after it.  When B's macro is
    used in the same translation unit, A's call returns what B's call
    returned, whatever A's own creation returned; when it is used in another
    one, A's call returns what A's own creation returned.  A's remaining
    operands change no lock object. *)
Theorem create_lock_overlap :
  forall (P : Pal) (u uB : nat) (lA lB : macro_arg) (c c0 : @caller P)
         (tB : IDTYPE) (vB : gmap string Z) (rA rB r : bool),
    Traced.create_lock false u lA c = Returned rA c0 ->
    (forall c1 c2 c3 : @caller P,
        Traced.create_lock_assign u lA c = Returned tt c1 ->
        Traced.create_lock true uB lB (resume tB vB c1) = Returned rB c2 ->
        (Traced.create_lock_trace u lA ;;; Traced.create_lock_yield u)
          (resume (c_tid c) (c_vars c1) c2) = Returned r c3 ->
        r = (if decide (uB = u) then rB else rA) /\ c_heap c3 = c_heap c2) /\
    (forall c1 c2 c3 : @caller P,
        (Traced.create_lock_assign u lA ;;; Traced.create_lock_trace u lA) c =
          Returned tt c1 ->
        Traced.create_lock true uB lB (resume tB vB c1) = Returned rB c2 ->
        Traced.create_lock_yield u (resume (c_tid c) (c_vars c1) c2) =
          Returned r c3 ->
        r = (if decide (uB = u) then rB else rA) /\ c_heap c3 = c_heap c2).
Proof.
  intros P u uB lA lB c c0 tB vB rA rB r HA. split.
  - intros c1 c2 c3 H1 HB H3.
    destruct (create_lock_assign_cell u lA c c0 c1 rA HA H1) as [Hcell _].
    destruct (traced_create_cells uB lB _ c2 rB HB) as [HrB Hother].
    unfold cbind in H3.
    destruct (Traced.create_lock_trace u lA _) as [[] c4|] eqn:E; [|discriminate].
    apply trace_handle_returned in E as [Hheap Hcells].
    unfold Traced.create_lock_yield, read_result in H3. injection H3 as <- <-.
    split; [|exact Hheap]. rewrite Hcells.
    change (result_cell u (resume (c_tid c) (c_vars c1) c2))
      with (result_cell u c2).
    destruct (decide (uB = u)) as [->|Hne]; [exact HrB|].
    rewrite Hother by auto. exact Hcell.
  - intros c1 c2 c3 H1 HB H3.
    unfold cbind in H1.
    destruct (Traced.create_lock_assign u lA c) as [[] c1'|] eqn:E1;
      [|discriminate].
    destruct (create_lock_assign_cell u lA c c0 c1' rA HA E1) as [Hcell _].
    apply trace_handle_returned in H1 as [_ Hcells].
    destruct (traced_create_cells uB lB _ c2 rB HB) as [HrB Hother].
    unfold Traced.create_lock_yield, read_result in H3. injection H3 as <- <-.
    split; [|reflexivity].
    change (result_cell u (resume (c_tid c) (c_vars c1) c2))
      with (result_cell u c2).
    destruct (decide (uB = u)) as [->|Hne]; [exact HrB|].
    rewrite Hother by auto.
    change (result_cell u (resume tB vB c1)) with (result_cell u c1).
    rewrite Hcells. exact Hcell.
Qed.

(** Thread 42, whose creation fails, and thread 7, whose creation succeeds,
    in one translation unit: thread 42 is told that its lock was created. *)
Lemma create_lock_overlap_witness :
  Traced.create_lock false 0 (address_of "a" 0) scarce_site =
    Returned false
      (after (Traced.create_lock false 0 (address_of "a" 0) scarce_site)) /\
  Traced.create_lock_assign 0 (address_of "a" 0) scarce_site =
    Returned tt scarce_assigned /\
  Traced.create_lock true 0 (address_of "b" 1) (resume 7 ∅ scarce_assigned) =
    Returned true scarce_overlapped /\
  (Traced.create_lock_trace 0 (address_of "a" 0) ;;; Traced.create_lock_yield 0)
    (resume (c_tid scarce_site) (c_vars scarce_assigned) scarce_overlapped) =
    Returned true
      (after ((Traced.create_lock_trace 0 (address_of "a" 0) ;;;
               Traced.create_lock_yield 0)
                (resume (c_tid scarce_site) (c_vars scarce_assigned)
                        scarce_overlapped))) /\
  true = (if decide (0%nat = 0%nat) then true else false).
Proof.
  assert (H0 : Traced.create_lock false 0 (address_of "a" 0) scarce_site =
               Returned false
                 (after (Traced.create_lock false 0 (address_of "a" 0) scarce_site)))
    by (vm_compute; reflexivity).
  assert (H1 : Traced.create_lock_assign 0 (address_of "a" 0) scarce_site =
               Returned tt scarce_assigned)
    by (vm_compute; reflexivity).
  assert (H2 : Traced.create_lock true 0 (address_of "b" 1)
                 (resume 7 ∅ scarce_assigned) = Returned true scarce_overlapped)
    by (vm_compute; reflexivity).
  assert (H3 : (Traced.create_lock_trace 0 (address_of "a" 0) ;;;
                Traced.create_lock_yield 0)
                 (resume (c_tid scarce_site) (c_vars scarce_assigned)
                         scarce_overlapped) =
               Returned true
                 (after ((Traced.create_lock_trace 0 (address_of "a" 0) ;;;
                          Traced.create_lock_yield 0)
                           (resume (c_tid scarce_site) (c_vars scarce_assigned)
                                   scarce_overlapped))))
    by (vm_compute; reflexivity).
  split; [exact H0|]. split; [exact H1|]. split; [exact H2|]. split; [exact H3|].
  exact (proj1 (proj1 (create_lock_overlap test_double 0 0
           (address_of "a" 0) (address_of "b" 1) scarce_site _ 7 ∅
           false true true H0) _ _ _ H1 H2 H3)).
Defined.

(* ===================================================================== *)
(** ** More on several threads *)
(* ===================================================================== *)

(** A step changes neither the number of threads nor the handle. *)
Lemma step_frame (i : nat) (s s' : state) :
  step i s = Some s' ->
  length (pcs s') = length (pcs s) /\ lock (shared s') = lock (shared s).
Proof.
  unfold step. destruct (pcs s !! i) as [p|]; [|discriminate].
  destruct p; unfold atomically, check_handle, wait_once, take_ownership,
    drop_ownership, signal, view, td_world; run.
  - destruct (non_null (lock (shared s))); [|discriminate].
    intros H. injection H as <-. cbn [pcs shared]. rewrite length_insert. auto.
  - unfold pal_event_wait.
    cbn [PalEventWait test_double mem pal calls cur_tid].
    destruct (td_wait (lock (shared s)) None (platform s)) as [[r p']|];
      [|discriminate].
    intros H. injection H as <-. cbn [pcs shared mem]. rewrite length_insert. auto.
  - intros H. injection H as <-. cbn [pcs shared lock]. rewrite length_insert. auto.
  - destruct (non_null (lock (shared s))); [|discriminate].
    intros H. injection H as <-. cbn [pcs shared]. rewrite length_insert. auto.
  - intros H. injection H as <-. cbn [pcs shared lock]. rewrite length_insert. auto.
  - intros H. injection H as <-. cbn [pcs shared]. rewrite length_insert. auto.
Qed.

Lemma exec_frame (sched : list nat) :
  forall s,
    length (pcs (exec sched s)) = length (pcs s) /\
    lock (shared (exec sched s)) = lock (shared s).
Proof.
  induction sched as [|i sched IH]; intros s; [auto|].
  cbn [exec]. destruct (step i s) as [s'|] eqn:Hs; simpl; [|apply IH].
  destruct (step_frame i s s' Hs) as [Hl Hh].
  destruct (IH s') as [Hl' Hh']. rewrite Hl', Hh'. auto.
Qed.

(** When some signal is in the hands of the threads, some thread has it. *)
Lemma signals_held_pos (l : list pc) :
  (0 < signals_held l)%nat ->
  exists i p, l !! i = Some p /\ has_signal p = true.
Proof.
  induction l as [|x l IH]; cbn [signals_held]; [lia|].
  destruct (has_signal x) eqn:Hx.
  - intros _. exists O, x. auto.
  - unfold tok. rewrite Hx. intros H.
    destruct (IH ltac:(lia)) as (i & p & Hi & Hp). exists (S i), p. auto.
Qed.

(** Under the invariant a thread can take its step, unless it is waiting
    while the event is not signaled. *)
Lemma step_enabled (i : nat) (s : state) (p : pc) :
  lock_inv s ->
  pcs s !! i = Some p ->
  p <> LockEntered \/ event_signals s = 1%nat ->
  exists s', step i s = Some s'.
Proof.
  intros [Hh (e & He & Ha) _ _ _] Hp Hen. unfold step. rewrite Hp.
  destruct p; unfold atomically, check_handle, wait_once, take_ownership,
    drop_ownership, signal, view, td_world; run; try (eexists; reflexivity).
  - rewrite Hh. eexists. reflexivity.
  - unfold pal_event_wait.
    cbn [PalEventWait test_double mem pal calls cur_tid].
    pose proof (td_wait_cases (lock (shared s)) (platform s) e He Ha) as Hw.
    destruct (td_wait (lock (shared s)) None (platform s)) as [[r p']|];
      [eexists; reflexivity|].
    exfalso. destruct Hen as [Hen|Hen]; [congruence|].
    rewrite (event_signals_eq s e He), Hw in Hen. discriminate.
  - rewrite Hh. eexists. reflexivity.
Qed.

(** X9 (no deadlock).  Take a lock that [_create_lock] has created on the
    test double, any number of threads that lock and unlock it, and the
    state after any interleaving of their steps.  Every thread that is not
    waiting can take its next step; a waiting thread can take its step as
    soon as the event is signaled; and when there is a thread at all, some
    thread can take a step. *)
Theorem some_thread_can_step :
  forall (w0 w : @world test_double) (n : nat) (sched : list nat),
    _create_lock w0 = Done true w ->
    (forall i p,
        pcs (exec sched (start n w)) !! i = Some p ->
        p <> LockEntered \/ event_signals (exec sched (start n w)) = 1%nat ->
        exists s', step i (exec sched (start n w)) = Some s') /\
    ((0 < n)%nat ->
     exists i s', (i < n)%nat /\ step i (exec sched (start n w)) = Some s').
Proof.
  intros w0 w n sched Hc.
  pose proof (exec_inv sched _ (start_inv w0 w n Hc)) as Hinv.
  destruct (exec_frame sched (start n w)) as [Hlen _].
  cbn [start pcs] in Hlen. rewrite length_replicate in Hlen.
  split.
  - intros i p Hp Hen. exact (step_enabled i _ p Hinv Hp Hen).
  - intros Hn. pose proof (inv_one_signal _ Hinv) as H1.
    destruct (Nat.eq_dec (event_signals (exec sched (start n w))) 1%nat)
      as [He|He].
    + destruct (lookup_lt_is_Some_2 (pcs (exec sched (start n w))) 0
                  ltac:(lia)) as [p Hp].
      destruct (step_enabled 0 _ p Hinv Hp (or_intror He)) as [s' Hs].
      exists O, s'. auto.
    + assert (Hpos : (0 < signals_held (pcs (exec sched (start n w))))%nat)
        by lia.
      destruct (signals_held_pos _ Hpos) as (i & p & Hp & Hsig).
      assert (Hne : p <> LockEntered) by (intros ->; discriminate).
      destruct (step_enabled i _ p Hinv Hp (or_introl Hne)) as [s' Hs].
      exists i, s'. split; [|exact Hs].
      apply lookup_lt_Some in Hp. lia.
Qed.

Lemma some_thread_can_step_witness :
  _create_lock fresh_world = Done true created_world /\
  (0 < 3)%nat /\
  exists i s', (i < 3)%nat /\
    step i (exec contended (start 3 created_world)) = Some s'.
Proof.
  split; [reflexivity|]. split; [lia|].
  apply (some_thread_can_step fresh_world created_world 3 contended);
    [reflexivity|lia].
Defined.

Lemma tid_of_inj (i j : nat) : tid_of i = tid_of j -> i = j.
Proof. unfold tid_of. lia. Qed.

(** X10 (owner under contention).  In the same setting, while a thread is in
    its critical section the owner field is that thread's identifier:
    [locked] run by that thread returns true and [locked] run by any other
    thread returns false, whatever the other threads are doing. *)
Theorem locked_under_contention :
  forall (w0 w : @world test_double) (n : nat) (sched : list nat) (i : nat),
    _create_lock w0 = Done true w ->
    in_critical_section (exec sched (start n w)) i = true ->
    owner (shared (exec sched (start n w))) = tid_of i /\
    locked (view i (exec sched (start n w))) =
      Done true (view i (exec sched (start n w))) /\
    (forall j, j <> i ->
       locked (view j (exec sched (start n w))) =
         Done false (view j (exec sched (start n w)))).
Proof.
  intros w0 w n sched i Hc Hi.
  pose proof (exec_inv sched _ (start_inv w0 w n Hc)) as Hinv.
  unfold in_critical_section in Hi.
  destruct (pcs (exec sched (start n w)) !! i) as [p|] eqn:Hp; [|discriminate].
  destruct p; try discriminate.
  pose proof (inv_owner _ Hinv i Holding (tid_of i) Hp eq_refl) as Ho.
  pose proof (inv_handle _ Hinv) as Hh.
  split; [exact Ho|]. split.
  - rewrite locked_run. cbn [view td_world mem cur_tid].
    rewrite Hh, Ho, Z.eqb_refl. reflexivity.
  - intros j Hj. rewrite locked_run. cbn [view td_world mem cur_tid].
    rewrite Hh, Ho. cbn [andb].
    destruct (tid_of j =? tid_of i) eqn:E; [|reflexivity].
    apply Z.eqb_eq, tid_of_inj in E. contradiction.
Qed.

Lemma locked_under_contention_witness :
  _create_lock fresh_world = Done true created_world /\
  in_critical_section (exec [0; 0; 0; 1; 1; 2]%nat (start 3 created_world)) 0 = true /\
  owner (shared (exec [0; 0; 0; 1; 1; 2]%nat (start 3 created_world))) = tid_of 0 /\
  locked (view 0 (exec [0; 0; 0; 1; 1; 2]%nat (start 3 created_world))) =
    Done true (view 0 (exec [0; 0; 0; 1; 1; 2]%nat (start 3 created_world))) /\
  (forall j, j <> 0%nat ->
     locked (view j (exec [0; 0; 0; 1; 1; 2]%nat (start 3 created_world))) =
       Done false (view j (exec [0; 0; 0; 1; 1; 2]%nat (start 3 created_world)))).
Proof.
  split; [reflexivity|]. split; [reflexivity|].
  apply (locked_under_contention fresh_world created_world 3
           [0; 0; 0; 1; 1; 2]%nat 0); reflexivity.
Defined.

Lemma signals_held_none (l : list pc) :
  Forall (fun p => has_signal p = false) l -> signals_held l = O.
Proof.
  induction 1 as [|p l Hp _ IH]; [reflexivity|].
  cbn [signals_held]. unfold tok. rewrite Hp, IH. reflexivity.
Qed.

(** X11 (the lock comes back).  In the same setting the threads never change
    the handle of the lock nor their number, and whenever no thread is
    between the success of its wait and its signal (all are outside or
    waiting), the lock is as [_create_lock] left it: its event is signaled
    and its owner field is 0. *)
Theorem idle_lock_is_free :
  forall (w0 w : @world test_double) (n : nat) (sched : list nat),
    _create_lock w0 = Done true w ->
    lock (shared (exec sched (start n w))) = lock (mem w) /\
    length (pcs (exec sched (start n w))) = n /\
    (Forall (fun p => has_signal p = false) (pcs (exec sched (start n w))) ->
     (exists e, lock_event (exec sched (start n w)) = Some e /\
                signaled e = true /\ auto_clear e = true) /\
     owner (shared (exec sched (start n w))) = 0).
Proof.
  intros w0 w n sched Hc.
  pose proof (exec_inv sched _ (start_inv w0 w n Hc)) as Hinv.
  destruct (exec_frame sched (start n w)) as [Hlen Hh].
  cbn [start pcs shared] in Hlen, Hh. rewrite length_replicate in Hlen.
  split; [exact Hh|]. split; [exact Hlen|].
  intros Hall. apply signals_held_none in Hall.
  pose proof (inv_one_signal _ Hinv) as H1. rewrite Hall in H1.
  destruct (inv_event _ Hinv) as (e & He & Ha).
  assert (Hev : event_signals (exec sched (start n w)) = 1%nat) by lia.
  split; [|exact (inv_unowned _ Hinv Hev)].
  exists e. split; [exact He|]. split; [|exact Ha].
  rewrite (event_signals_eq _ e He) in Hev.
  destruct (signaled e); [reflexivity|discriminate].
Qed.

Lemma idle_lock_is_free_witness :
  _create_lock fresh_world = Done true created_world /\
  Forall (fun p => has_signal p = false)
    (pcs (exec [0; 0; 0; 1; 0; 0; 0]%nat (start 2 created_world))) /\
  (exists e,
      lock_event (exec [0; 0; 0; 1; 0; 0; 0]%nat (start 2 created_world)) = Some e /\
      signaled e = true /\ auto_clear e = true) /\
  owner (shared (exec [0; 0; 0; 1; 0; 0; 0]%nat (start 2 created_world))) = 0.
Proof.
  assert (Hall : Forall (fun p => has_signal p = false)
            (pcs (exec [0; 0; 0; 1; 0; 0; 0]%nat (start 2 created_world))))
    by (vm_compute; repeat constructor).
  split; [reflexivity|]. split; [exact Hall|].
  exact (proj2 (proj2 (idle_lock_is_free fresh_world created_world 2
                         [0; 0; 0; 1; 0; 0; 0]%nat eq_refl)) Hall).
Defined.










